(** * The reply router of reactive-commons-go (reply_router.go)

    The router keeps a table of pending replies, keyed by correlation id.
    Three pieces of code touch it: [addReplyToListen] (a caller registers a
    wait), the body of the consumer loop started by [listen] (a reply came
    in) and [cleanReply] (the deadline timer of an entry fired).

    The Go functions are embedded as programs over the primitive operations
    they perform (map access, channel send and close, timer stop, broker
    acknowledgement).  The same programs are given two semantics: one that
    runs a function body to completion, and one that interleaves the
    goroutines instruction by instruction. *)

From stdpp Require Import gmap strings list.
From Stdlib.Strings Require Import Byte.

Set Default Proof Using "Type".
Open Scope Z_scope.

(** ** Data model *)

(** Channels and timers live on the Go heap; they are named by their
    allocation index. *)
Abbreviation chan_id := nat (only parsing).
Abbreviation timer_id := nat (only parsing).

(** Go [error] values: the one this file builds,
    [&TimeoutReplyError{msg: ...}], and the ones the broker client returns. *)
Inductive error :=
  | TimeoutReplyError (msg : string)
  | AmqpError (code : Z) (reason : string).

(** [type reply struct { query string; data []byte; err error }] *)
Record reply := Reply {
  reply_query : string;
  reply_data : list byte;
  reply_err : option error;
}.

(** [type replyStr struct { query string; ch chan *reply; timer *time.Timer }] *)
Record replyStr := ReplyStr {
  query : string;
  ch : chan_id;
  timer : timer_id;
}.

(** A header value has type [interface{}]. *)
Inductive iface :=
  | IString (s : string)
  | IInt (n : Z)
  | IBool (b : bool)
  | INil.

(** [v == ""] for [v] of type [interface{}]: the dynamic type has to be
    [string] and the value empty; other dynamic types compare unequal. *)
Definition iface_is_empty_string (v : iface) : bool :=
  match v with
  | IString s => bool_decide (s = "")
  | _ => false
  end.

(** The fields of [amqp.Delivery] that the consumer loop reads. *)
Record Delivery := {
  CorrelationId : string;
  Headers : gmap string iface;
  Body : list byte;
  DeliveryTag : N;
}.

(** The function handed to [time.AfterFunc].  The file builds one closure
    only, [func() { r.cleanReply(correlationId) }], kept here by the variable
    it captures. *)
Inductive timer_func :=
  | CleanReply (correlationId : string).

(** ** Primitive operations and programs *)

Inductive op : Type → Type :=
  | MapLookup (k : string) : op (option replyStr) (* v, ok := r.repliesMap[k] *)
  | MapInsert (k : string) (e : replyStr) : op unit (* r.repliesMap[k] = e *)
  | MapDelete (k : string) : op unit              (* delete(r.repliesMap, k) *)
  | ReadTimeout : op Z                            (* r.timeout *)
  | MakeChan : op chan_id                         (* make(chan *reply) *)
  | AfterFunc (d : Z) (f : timer_func) : op timer_id (* time.AfterFunc(d, f) *)
  | TimerStop (t : timer_id) : op bool            (* t.Stop() *)
  | ChanSend (c : chan_id) (v : reply) : op unit  (* c <- v *)
  | ChanClose (c : chan_id) : op unit             (* close(c) *)
  | Ack (tag : N) (multiple : bool) : op unit.    (* m.Ack(multiple) *)

Inductive prog (A : Type) : Type :=
  | Ret (a : A)
  | Vis {X : Type} (o : op X) (k : X → prog A).
Arguments Ret {A} a.
Arguments Vis {A X} o k.

Fixpoint prog_bind {A B} (p : prog A) (f : A → prog B) : prog B :=
  match p with
  | Ret a => f a
  | Vis o k => Vis o (λ x, prog_bind (k x) f)
  end.

#[global] Instance prog_ret : MRet prog := λ A a, Ret a.
#[global] Instance prog_mbind : MBind prog := λ A B f p, prog_bind p f.

Definition call {X} (o : op X) : prog X := Vis o Ret.

(** ** The functions of reply_router.go *)

Section router_code.

(** Package-level constants declared outside reply_router.go. *)
Variable correlationIDHeader : string.

(** Lines 118-136: the lookup of the pending entry and what follows. *)
Definition route (corrId : string) (m : Delivery) : prog unit :=
  found ← call (MapLookup corrId);
  match found with
  | Some replyStr =>
      (* Verify if the timeout has already elapsed. *)
      stopped ← call (TimerStop (timer replyStr));
      if negb stopped then
        call (Ack (DeliveryTag m) false)           (* continue *)
      else
        call (ChanSend (ch replyStr)
                {| reply_query := query replyStr;
                   reply_data := Body m;
                   reply_err := None |});;
        call (ChanClose (ch replyStr));;
        call (MapDelete corrId);;
        call (Ack (DeliveryTag m) false)
  | None => mret ()
  end.

(** Lines 105-137: one iteration of [for msg := range msgs].  The
    [corrId, ok := ...] of line 111 declares a new variable in the block of
    the [if]; it is [hdr] here, and [corrId] keeps the value of line 109. *)
Definition listen_body (msg : Delivery) : prog unit :=
  let m := msg in
  let corrId := CorrelationId msg in
  if bool_decide (corrId = "") then
    let hdr := Headers msg !! correlationIDHeader in
    match hdr with
    | None => call (Ack (DeliveryTag m) false)      (* !ok: continue *)
    | Some v =>
        if iface_is_empty_string v then
          call (Ack (DeliveryTag m) false)          (* continue *)
        else route corrId m
    end
  else route corrId m.

(** Lines 143-157. *)
Definition addReplyToListen (query correlationId : string) : prog chan_id :=
  ch ← call MakeChan;
  d ← call ReadTimeout;
  timer ← call (AfterFunc d (CleanReply correlationId));
  call (MapInsert correlationId
          {| query := query; ch := ch; timer := timer |});;
  mret ch.

(** Lines 159-174.  The reply sent leaves [query] and [data] at their
    zero values. *)
Definition cleanReply (correlationId : string) : prog unit :=
  found ← call (MapLookup correlationId);
  match found with
  | None => mret ()
  | Some replyStr =>
      call (ChanSend (ch replyStr)
              {| reply_query := "";
                 reply_data := [];
                 reply_err := Some (TimeoutReplyError
                   ("timeout while waiting for reply " +:+ query replyStr)) |});;
      call (ChanClose (ch replyStr));;
      call (MapDelete correlationId)
  end.

Definition timer_body (f : timer_func) : prog unit :=
  match f with
  | CleanReply correlationId => cleanReply correlationId
  end.

End router_code.

(** ** Run-time state *)

(** [type replyRouter struct]; the broker channel [ch] is not read by the
    code modelled here.  Every key the file puts into or looks up in
    [repliesMap] (declared [map[interface{}]replyStr]) is a Go [string]. *)
Record replyRouter := {
  router_id : string;
  repliesMap : gmap string replyStr;
  timeout : Z;
}.

(** A timer is armed until its deadline elapses or [Stop] gets there first.
    When the deadline elapses the runtime starts the function in a goroutine
    of its own: [Fired] while that goroutine has not run yet, [Returned] once
    it has finished. *)
Inductive timer_status := Armed | Stopped | Fired | Returned.

Record timer_state := {
  t_status : timer_status;
  t_d : Z;
  t_func : timer_func;
}.

(** An unbuffered channel: a send completes by handing the value to the
    receiver; [delivered] lists the values handed over so far. *)
Record chan_state := {
  closed : bool;
  delivered : list reply;
}.

Inductive event :=
  | ESend (c : chan_id) (v : reply)
  | EClose (c : chan_id)
  | EAck (tag : N) (multiple : bool).

Record world := {
  router : replyRouter;
  chans : list chan_state;
  timers : list timer_state;
  trace : list event;
}.

Inductive panic :=
  | SendOnClosedChannel
  | CloseOfClosedChannel
  | NilDereference.

Inductive outcome (A : Type) :=
  | Done (a : A) (w : world)
  | Panic (p : panic).
Arguments Done {A} a w.
Arguments Panic {A} p.

Definition set_repliesMap (f : gmap string replyStr → gmap string replyStr)
    (w : world) : world :=
  {| router := {| router_id := router_id (router w);
                  repliesMap := f (repliesMap (router w));
                  timeout := timeout (router w) |};
     chans := chans w; timers := timers w; trace := trace w |}.

Definition set_chans (cs : list chan_state) (w : world) : world :=
  {| router := router w; chans := cs; timers := timers w; trace := trace w |}.

Definition set_timers (ts : list timer_state) (w : world) : world :=
  {| router := router w; chans := chans w; timers := ts; trace := trace w |}.

Definition emit (e : event) (w : world) : world :=
  {| router := router w; chans := chans w; timers := timers w;
     trace := trace w ++ [e] |}.

Definition set_status (s : timer_status) (ts : timer_state) : timer_state :=
  {| t_status := s; t_d := t_d ts; t_func := t_func ts |}.

Definition open_chan : chan_state := {| closed := false; delivered := [] |}.

Definition is_armed (s : timer_status) : bool :=
  match s with Armed => true | _ => false end.

Definition is_fired (s : timer_status) : bool :=
  match s with Fired => true | _ => false end.

(** What one primitive operation does to the state. *)
Definition handle {X} (o : op X) : world → outcome X :=
  match o in op X return world → outcome X with
  | MapLookup k => λ w, Done (repliesMap (router w) !! k) w
  | MapInsert k e => λ w, Done () (set_repliesMap (insert k e) w)
  | MapDelete k => λ w, Done () (set_repliesMap (delete k) w)
  | ReadTimeout => λ w, Done (timeout (router w)) w
  | MakeChan => λ w,
      Done (length (chans w)) (set_chans (chans w ++ [open_chan]) w)
  | AfterFunc d f => λ w,
      Done (length (timers w))
        (set_timers
           (timers w ++ [{| t_status := Armed; t_d := d; t_func := f |}]) w)
  | TimerStop t => λ w,
      match timers w !! t with
      | None => Panic NilDereference
      | Some ts =>
          if is_armed (t_status ts)
          then Done true (set_timers (<[t := set_status Stopped ts]> (timers w)) w)
          else Done false w
      end
  | ChanSend c v => λ w,
      match chans w !! c with
      | None => Panic NilDereference
      | Some cs =>
          if closed cs then Panic SendOnClosedChannel
          else Done ()
                 (emit (ESend c v)
                    (set_chans
                       (<[c := {| closed := false;
                                  delivered := delivered cs ++ [v] |}]>
                          (chans w)) w))
      end
  | ChanClose c => λ w,
      match chans w !! c with
      | None => Panic NilDereference
      | Some cs =>
          if closed cs then Panic CloseOfClosedChannel
          else Done ()
                 (emit (EClose c)
                    (set_chans
                       (<[c := {| closed := true; delivered := delivered cs |}]>
                          (chans w)) w))
      end
  | Ack tag multiple => λ w, Done () (emit (EAck tag multiple) w)
  end.

(** A function body run from start to end with nothing in between. *)
Fixpoint run {A} (p : prog A) (w : world) : outcome A :=
  match p with
  | Ret a => Done a w
  | Vis o k =>
      match handle o w with
      | Done x w' => run (k x) w'
      | Panic e => Panic e
      end
  end.

(** ** Construction and start-up *)

Inductive log_event :=
  | Warn (msg : string).

Definition short_timeout_warning : string :=
  "Be careful. Your timeout is too short, please consider give enough timeout to your replies.".

(** [time.Millisecond*500], a [time.Duration] counts nanoseconds. *)
Definition Millisecond : Z := 1000000.

(** Lines 34-47.  [uuid] is the string [uuid.NewString()] returns. *)
Definition newReplyRouter (appName : string) (timeout : Z) (uuid : string)
    : replyRouter * list log_event :=
  ({| router_id := appName +:+ "." +:+ uuid;
      repliesMap := ∅;
      timeout := timeout |},
   if bool_decide (timeout < Millisecond * 500)
   then [Warn short_timeout_warning] else []).

(** The calls [listen] makes on the broker channel ([nil] argument tables
    left out). *)
Inductive broker_call :=
  | QueueDeclare (name : string) (durable autoDelete exclusive noWait : bool)
  | QueueBind (name key exchange : string) (noWait : bool)
  | Qos (prefetchCount prefetchSize : Z) (global : bool)
  | Consume (queue consumer : string) (autoAck exclusive noLocal noWait : bool).

(** What the broker client answers to each of them. *)
Record broker_answers := {
  on_Channel : option error;
  on_QueueDeclare : error + string;   (* the [Name] of the queue declared *)
  on_QueueBind : option error;
  on_Qos : option error;
  on_Consume : option error;
}.

Inductive listen_result :=
  | ListenAborted                       (* failOnError gave up *)
  | ListenReturn (err : option error) (* [ListenReturn None]: the consumer goroutine runs *).

Section listen_code.

Variable globalReplyExchange : string.

(** Lines 49-141, up to the start of the consumer goroutine.
    Modelled from the spec: [failOnError] is declared outside
    reply_router.go; a connection failure is fatal at start-up. *)
Definition listen (r : replyRouter) (b : broker_answers)
    : list broker_call * listen_result :=
  match on_Channel b with
  | Some _ => ([], ListenAborted)
  | None =>
      let c1 := QueueDeclare (router_id r) true false true false in
      match on_QueueDeclare b with
      | inl err => ([c1], ListenReturn (Some err))
      | inr queriesQueue_Name =>
          let c2 := QueueBind queriesQueue_Name (router_id r)
                      globalReplyExchange false in
          match on_QueueBind b with
          | Some err => ([c1; c2], ListenReturn (Some err))
          | None =>
              let c3 := Qos 15 0 false in
              match on_Qos b with
              | Some err => ([c1; c2; c3], ListenReturn (Some err))
              | None =>
                  let c4 := Consume queriesQueue_Name (router_id r)
                              true false false false in
                  match on_Consume b with
                  | Some err => ([c1; c2; c3; c4], ListenReturn (Some err))
                  | None => ([c1; c2; c3; c4], ListenReturn None)
                  end
              end
          end
      end
  end.

End listen_code.

(** ** The goroutines, one function body at a time *)

Section steps.

Variable correlationIDHeader : string.

(** A caller registers a wait, the consumer loop takes the next delivery,
    the deadline of a timer elapses, the goroutine of a fired timer runs. *)
Inductive action :=
  | Call (query correlationId : string)
  | Deliver (msg : Delivery)
  | Fire (t : timer_id)
  | RunTimer (t : timer_id).

Definition forget {A} (o : outcome A) : outcome unit :=
  match o with
  | Done _ w => Done () w
  | Panic e => Panic e
  end.

(** [None]: the action cannot happen in this state. *)
Definition step (a : action) (w : world) : option (outcome unit) :=
  match a with
  | Call q k => Some (forget (run (addReplyToListen q k) w))
  | Deliver msg => Some (run (listen_body correlationIDHeader msg) w)
  | Fire t =>
      match timers w !! t with
      | Some ts =>
          if is_armed (t_status ts)
          then Some (Done () (set_timers (<[t := set_status Fired ts]> (timers w)) w))
          else None
      | None => None
      end
  | RunTimer t =>
      match timers w !! t with
      | Some ts =>
          if is_fired (t_status ts)
          then Some (run (timer_body (t_func ts))
                       (set_timers (<[t := set_status Returned ts]> (timers w)) w))
          else None
      | None => None
      end
  end.

Definition init_world (r : replyRouter) : world :=
  {| router := r; chans := []; timers := []; trace := [] |}.

(** The states the router can be in: it starts from what [newReplyRouter]
    returns. *)
Inductive reachable : world → Prop :=
  | reachable_init appName timeout uuid :
      reachable (init_world (newReplyRouter appName timeout uuid).1)
  | reachable_step w a w' :
      reachable w → step a w = Some (Done () w') → reachable w'.

(** A run of several actions, stopping at the first that cannot happen or
    panics. *)
Fixpoint steps (l : list action) (w : world) : option (outcome unit) :=
  match l with
  | [] => Some (Done () w)
  | a :: l' =>
      match step a w with
      | Some (Done _ w') => steps l' w'
      | r => r
      end
  end.

End steps.

(** ** Which deliveries the loop drops as malformed *)

Section malformed.

Variable correlationIDHeader : string.

(** The condition under which lines 110-115 acknowledge and [continue]. *)
Definition dropped_as_malformed (msg : Delivery) : bool :=
  bool_decide (CorrelationId msg = "") &&
  match Headers msg !! correlationIDHeader with
  | None => true
  | Some v => iface_is_empty_string v
  end.

End malformed.

(** ** The goroutines, one instruction at a time *)

(** The file has no lock: a goroutine carries on from one primitive
    operation to the next, and any other goroutine may run in between. *)

Record system := {
  sys_world : world;
  consumer : prog unit;       (* what is left of the iteration under way *)
  others : list (prog unit);  (* timer functions and callers under way *)
}.

(** The next instruction of a goroutine; [None] when it has finished or the
    instruction panics. *)
Definition advance (p : prog unit) (w : world) : option (prog unit * world) :=
  match p with
  | Ret _ => None
  | Vis o k =>
      match handle o w with
      | Done x w' => Some (k x, w')
      | Panic _ => None
      end
  end.

Definition finished (p : prog unit) : bool :=
  match p with
  | Ret _ => true
  | Vis _ _ => false
  end.

Inductive sched :=
  | SCall (query correlationId : string) (* a caller enters addReplyToListen *)
  | SDeliver (msg : Delivery)   (* the consumer loop takes the next delivery *)
  | SFire (t : timer_id)        (* the deadline elapses, the function starts *)
  | SConsumer                   (* the consumer does its next instruction *)
  | SOther (i : nat).           (* goroutine [i] does its next instruction *)

Section interleaving.

Variable correlationIDHeader : string.

Definition istep (a : sched) (s : system) : option system :=
  match a with
  | SCall q k =>
      Some {| sys_world := sys_world s;
              consumer := consumer s;
              others := others s ++ [addReplyToListen q k ≫= λ _, mret ()] |}
  | SDeliver msg =>
      if finished (consumer s)
      then Some {| sys_world := sys_world s;
                   consumer := listen_body correlationIDHeader msg;
                   others := others s |}
      else None
  | SFire t =>
      match timers (sys_world s) !! t with
      | Some ts =>
          if is_armed (t_status ts)
          then Some {| sys_world :=
                         set_timers (<[t := set_status Fired ts]>
                                       (timers (sys_world s))) (sys_world s);
                       consumer := consumer s;
                       others := others s ++ [timer_body (t_func ts)] |}
          else None
      | None => None
      end
  | SConsumer =>
      match advance (consumer s) (sys_world s) with
      | Some (p, w') =>
          Some {| sys_world := w'; consumer := p; others := others s |}
      | None => None
      end
  | SOther i =>
      match others s !! i with
      | Some p =>
          match advance p (sys_world s) with
          | Some (p', w') =>
              Some {| sys_world := w'; consumer := consumer s;
                      others := <[i := p']> (others s) |}
          | None => None
          end
      | None => None
      end
  end.

Fixpoint isteps (l : list sched) (s : system) : option system :=
  match l with
  | [] => Some s
  | a :: l' =>
      match istep a s with
      | Some s' => isteps l' s'
      | None => None
      end
  end.

End interleaving.

(** A goroutine left to itself, from its first instruction to its return. *)
Inductive runs_to : prog unit → world → world → Prop :=
  | runs_to_ret u w : runs_to (Ret u) w w
  | runs_to_step p w p' w' w'' :
      advance p w = Some (p', w') → runs_to p' w' w'' → runs_to p w w''.

Definition init_system (r : replyRouter) : system :=
  {| sys_world := init_world r; consumer := Ret (); others := [] |}.

(** The access to [r.repliesMap] that an instruction makes. *)
Inductive map_access :=
  | ReadKey (k : string)
  | WriteKey (k : string).

Definition access_of {X} (o : op X) : option map_access :=
  match o with
  | MapLookup k => Some (ReadKey k)
  | MapInsert k _ => Some (WriteKey k)
  | MapDelete k => Some (WriteKey k)
  | _ => None
  end.

Definition next_access (p : prog unit) : option map_access :=
  match p with
  | Ret _ => None
  | Vis o _ => access_of o
  end.

(** Two accesses to the map conflict when one of them writes. *)
Definition conflict (a b : option map_access) : bool :=
  match a, b with
  | Some (WriteKey _), Some _ => true
  | Some _, Some (WriteKey _) => true
  | _, _ => false
  end.

(** Two goroutines are both about to access the map, one of them writing,
    and nothing orders them. *)
Fixpoint racing_in (l : list (prog unit)) : bool :=
  match l with
  | [] => false
  | p :: l' =>
      existsb (λ q, conflict (next_access p) (next_access q)) l' || racing_in l'
  end.

Definition racing (s : system) : bool := racing_in (consumer s :: others s).

(** A schedule: two callers register "abc" and "xyz"; the timer of "xyz"
    fires and its [cleanReply] gets as far as its [delete]; a reply to "abc"
    comes in and the consumer gets as far as its [delete]. *)
Definition race_schedule : list sched :=
  [SCall "q" "abc"; SOther 0; SOther 0; SOther 0; SOther 0;
   SCall "q" "xyz"; SOther 1; SOther 1; SOther 1; SOther 1;
   SFire 1; SOther 2; SOther 2; SOther 2;
   SDeliver {| CorrelationId := "abc"; Headers := ∅;
               Body := [x7b; x7d]%byte; DeliveryTag := 1%N |};
   SConsumer; SConsumer; SConsumer; SConsumer].

(** Another schedule: a caller is inside [addReplyToListen "q" "abc"], past
    [time.AfterFunc] and before the store of line 150, when the deadline
    elapses and the timer's [cleanReply "abc"] starts. *)
Definition early_fire_schedule : list sched :=
  [SCall "q" "abc"; SOther 0; SOther 0; SOther 0; SFire 0].

(** ... and then [cleanReply] runs first and the caller finishes. *)
Definition early_fire_rest : list sched :=
  [SOther 1; SOther 0].

(** ** Closed forms of the effects *)

(** The reply the consumer loop builds (lines 125-129) and the one
    [cleanReply] builds (lines 165-169). *)
Definition reply_of (e : replyStr) (m : Delivery) : reply :=
  {| reply_query := query e; reply_data := Body m; reply_err := None |}.

Definition timeout_of (e : replyStr) : reply :=
  {| reply_query := "";
     reply_data := [];
     reply_err := Some (TimeoutReplyError
                          ("timeout while waiting for reply " +:+ query e)) |}.

(** The state after [c <- v; close(c)] on a channel found in state [cs]. *)
Definition hand_over (c : chan_id) (v : reply) (cs : chan_state) (w : world)
    : world :=
  emit (EClose c)
    (emit (ESend c v)
       (set_chans
          (<[c := {| closed := true; delivered := delivered cs ++ [v] |}]>
             (chans w)) w)).

(** ** What is read off a state *)

(** The values sent on channel [c], and whether it was closed, according to
    the trace. *)
Definition sent_on (c : chan_id) (tr : list event) : list reply :=
  omap (λ e, match e with
             | ESend c' v => if decide (c' = c) then Some v else None
             | _ => None
             end) tr.

Definition closed_in (c : chan_id) (tr : list event) : bool :=
  existsb (λ e, match e with
                | EClose c' => bool_decide (c' = c)
                | _ => false
                end) tr.

Definition acks (tr : list event) : list N :=
  omap (λ e, match e with EAck tag _ => Some tag | _ => None end) tr.

(** The two outcomes a caller can be handed. *)
Definition is_reply (v : reply) : Prop := reply_err v = None.

Definition is_timeout (v : reply) : Prop :=
  ∃ msg, reply_err v = Some (TimeoutReplyError msg).

(** A channel is either still waiting (open, nothing handed over) or settled
    (closed after exactly one value). *)
Definition waiting (cs : chan_state) : Prop := cs = open_chan.

Definition settled (cs : chan_state) : Prop :=
  ∃ v, cs = {| closed := true; delivered := [v] |} ∧ (is_reply v ∨ is_timeout v).

(** State invariant.  Every entry of the table owns a waiting channel and a
    timer, not yet run, whose function cleans the entry's own key; two
    entries never share a channel; every channel is waiting or settled; the
    channels agree with the trace. *)
Record entry_ok (w : world) (k : string) (e : replyStr) : Prop := {
  entry_chan : chans w !! ch e = Some open_chan;
  entry_timer : ∃ ts, timers w !! timer e = Some ts ∧
                      t_func ts = CleanReply k ∧
                      (t_status ts = Armed ∨ t_status ts = Fired);
}.

Record consistent (w : world) : Prop := {
  cons_entry : ∀ k e, repliesMap (router w) !! k = Some e → entry_ok w k e;
  cons_chan_inj : ∀ k1 k2 e1 e2,
    repliesMap (router w) !! k1 = Some e1 →
    repliesMap (router w) !! k2 = Some e2 →
    ch e1 = ch e2 → k1 = k2;
  cons_chans : ∀ c cs, chans w !! c = Some cs → waiting cs ∨ settled cs;
  cons_trace : ∀ c,
    sent_on c (trace w) = from_option delivered [] (chans w !! c) ∧
    closed_in c (trace w) = from_option closed false (chans w !! c);
}.


(** ** Sample inputs *)

Definition sample_header : string := "x-correlation-id".

(** The reply timeout of the end-to-end tests, [time.Second * 45]. *)
Definition sample_router : replyRouter :=
  (newReplyRouter "testingPublisherApp" 45000000000
     "6ba7b810-9dad-11d1-80b4-00c04fd430c8").1.

(** The state after the actions [l], from a fresh router. *)
Definition sample_world (l : list action) : world :=
  match steps sample_header l (init_world sample_router) with
  | Some (Done _ w) => w
  | _ => init_world sample_router
  end.

(** A reply carrying its correlation id in the native field, and one
    carrying it in the header only. *)
Definition sample_reply (corrId : string) : Delivery :=
  {| CorrelationId := corrId;
     Headers := ∅;
     Body := [x7b; x7d]%byte;
     DeliveryTag := 1%N |}.

Definition sample_header_reply (corrId : string) : Delivery :=
  {| CorrelationId := "";
     Headers := {[ sample_header := IString corrId ]};
     Body := [x7b; x7d]%byte;
     DeliveryTag := 2%N |}.

Definition sample_broker : broker_answers :=
  {| on_Channel := None;
     on_QueueDeclare := inr (router_id sample_router);
     on_QueueBind := None;
     on_Qos := None;
     on_Consume := None |}.

(** ** Start-up: what the broker answered to a call *)

(** The error, if any, that the broker client returned for a call of
    [listen]. *)
Definition answer_to (b : broker_answers) (c : broker_call) : option error :=
  match c with
  | QueueDeclare _ _ _ _ _ =>
      match on_QueueDeclare b with
      | inl err => Some err
      | inr _ => None
      end
  | QueueBind _ _ _ _ => on_QueueBind b
  | Qos _ _ _ => on_Qos b
  | Consume _ _ _ _ _ _ => on_Consume b
  end.

(** ** How a timer's status may move *)

(** Armed timers may be stopped or fire, a fired timer's goroutine may
    return; nothing else. *)
Definition timer_moved (s s' : timer_status) : bool :=
  match s, s' with
  | Armed, _ => true
  | Fired, Fired | Fired, Returned => true
  | Stopped, Stopped => true
  | Returned, Returned => true
  | _, _ => false
  end.

(** The key whose entry a step may settle. *)
Definition key_of (a : action) (w : world) : option string :=
  match a with
  | Deliver msg => Some (CorrelationId msg)
  | RunTimer t =>
      match timers w !! t with
      | Some {| t_func := CleanReply k |} => Some k
      | None => None
      end
  | _ => None
  end.

(** The state an outcome leaves, [w] itself after a panic. *)
Definition state_after {A} (o : outcome A) (w : world) : world :=
  match o with
  | Done _ w' => w'
  | Panic _ => w
  end.

(** The acknowledgements of a trace, each with its tag and its [multiple]
    flag. *)
Definition ack_calls (tr : list event) : list (N * bool) :=
  omap (λ e, match e with EAck tag m => Some (tag, m) | _ => None end) tr.

(** ** A reply racing with its deadline, instruction by instruction *)





Section race.

Variable m : Delivery.
Variable e : replyStr.












End race.

(** The state a schedule leads to, [s] itself when it cannot be run. *)
Definition system_after (o : option system) (s : system) : system :=
  match o with
  | Some s' => s'
  | None => s
  end.


(** ** What a goroutine may still do *)

(** A program whose instructions all satisfy [op_ok], whatever results
    satisfying [res_ok] the instructions before them were given. *)
Section guarded.

Variable op_ok : ∀ X, op X → Prop.
Variable res_ok : ∀ X, op X → X → Prop.

Fixpoint guarded {A} (p : prog A) : Prop :=
  match p with
  | Ret _ => True
  | @Vis _ X o k => op_ok X o ∧ ∀ x, res_ok X o x → guarded (k x)
  end.

(** The state satisfies [I] and every goroutine under way is guarded. *)
Definition sys_guarded (I : world → Prop) (s : system) : Prop :=
  I (sys_world s) ∧ guarded (consumer s) ∧ Forall guarded (others s).

End guarded.





(** The entry [e0] is in the table under [k0] with its channel open, while
    its timer can no longer fire and no other timer cleans [k0]; no other
    entry shares its channel or its timer. *)
Record stranded (k0 : string) (e0 : replyStr) (w : world) : Prop := {
  str_entry : repliesMap (router w) !! k0 = Some e0;
  str_chan : chans w !! ch e0 = Some open_chan;
  str_timer : ∃ ts, timers w !! timer e0 = Some ts ∧
                    is_armed (t_status ts) = false;
  str_others : ∀ k e, k ≠ k0 → repliesMap (router w) !! k = Some e →
                      ch e ≠ ch e0 ∧ timer e ≠ timer e0;
  str_timers : ∀ t ts, timers w !! t = Some ts →
                       is_armed (t_status ts) = true →
                       t_func ts ≠ CleanReply k0;
}.

(** What a goroutine does next to such an entry: nothing, as long as it does
    not store or delete under [k0], does not send on or close the entry's
    channel, and arms no timer that cleans [k0]. *)
Definition stranded_op (k0 : string) (e0 : replyStr) (X : Type) (o : op X)
    : Prop :=
  match o with
  | ChanSend c _ => c ≠ ch e0
  | ChanClose c => c ≠ ch e0
  | MapInsert k e => k ≠ k0 ∧ ch e ≠ ch e0 ∧ timer e ≠ timer e0
  | MapDelete k => k ≠ k0
  | AfterFunc _ f => f ≠ CleanReply k0
  | _ => True
  end.

Definition stranded_res (k0 : string) (e0 : replyStr) (X : Type) (o : op X)
    : X → Prop :=
  match o in op X return X → Prop with
  | MapLookup k => λ x,
      if decide (k = k0) then x = Some e0
      else ∀ e, x = Some e → ch e ≠ ch e0 ∧ timer e ≠ timer e0
  | TimerStop t => λ b, t = timer e0 → b = false
  | MakeChan => λ x, x ≠ ch e0
  | AfterFunc _ _ => λ x, x ≠ timer e0
  | _ => λ _, True
  end.

(** No caller registers the correlation id [k0] again. *)
Definition no_reuse (k0 : string) (a : sched) : Prop :=
  match a with
  | SCall _ k => k ≠ k0
  | _ => True
  end.

(** The entry of the early-fire schedule, and the state the schedule leads
    to when [cleanReply] gets to the map before the caller's store. *)
Definition early_entry : replyStr :=
  {| query := "q"; ch := 0%nat; timer := 0%nat |}.

Definition early_fire_end : system :=
  system_after
    (isteps sample_header (early_fire_schedule ++ early_fire_rest)
       (init_system sample_router))
    (init_system sample_router).






(** What follows the early fire in the sample run: a reply to "abc" comes
    in, then another wait is registered, times out and is cleaned. *)
Definition stranded_rest : list sched :=
  [SDeliver (sample_reply "abc"); SConsumer; SConsumer; SConsumer;
   SCall "q" "xyz"; SOther 2; SOther 2; SOther 2; SOther 2;
   SFire 1; SOther 3; SOther 3; SOther 3; SOther 3].

(** * Properties *)

Lemma run_bind {A B} (p : prog A) (f : A → prog B) w :
  run (p ≫= f) w =
  match run p w with
  | Done a w' => run (f a) w'
  | Panic e => Panic e
  end.
Proof.
  revert w. induction p as [a|X o k IH]; intros w; [done|].
  change (run (Vis o k ≫= f) w) with
    (match handle o w with
     | Done x w' => run (k x ≫= f) w'
     | Panic e => Panic e
     end).
  simpl. destruct (handle o w); [apply IH|done].
Qed.

Lemma listen_body_cases hdr msg :
  listen_body hdr msg =
  if dropped_as_malformed hdr msg then call (Ack (DeliveryTag msg) false)
  else route (CorrelationId msg) msg.
Proof.
  unfold listen_body, dropped_as_malformed.
  destruct (bool_decide _); [|done]. simpl.
  destruct (Headers msg !! _) as [v|]; [|done].
  by destruct (iface_is_empty_string v).
Qed.

Lemma dropped_as_malformed_iff hdr msg :
  dropped_as_malformed hdr msg = true ↔
  CorrelationId msg = "" ∧
  (Headers msg !! hdr = None ∨ Headers msg !! hdr = Some (IString "")).
Proof.
  unfold dropped_as_malformed. rewrite andb_true_iff, bool_decide_eq_true.
  apply and_iff_compat_l.
  destruct (Headers msg !! hdr) as [[s| | |]|]; simpl.
  - rewrite bool_decide_eq_true.
    split; [intros ->; by right|intros [[=]|[= ->]]; done].
  - split; [done|intros [[=]|[=]]].
  - split; [done|intros [[=]|[=]]].
  - split; [done|intros [[=]|[=]]].
  - split; [by left|done].
Qed.

Lemma run_route_absent k m w :
  repliesMap (router w) !! k = None → run (route k m) w = Done () w.
Proof. intros H. simpl. by rewrite H. Qed.

Lemma run_addReplyToListen q k w :
  run (addReplyToListen q k) w =
  Done (length (chans w))
    (set_repliesMap
       (insert k {| query := q; ch := length (chans w);
                    timer := length (timers w) |})
       (set_timers
          (timers w ++ [{| t_status := Armed; t_d := timeout (router w);
                           t_func := CleanReply k |}])
          (set_chans (chans w ++ [open_chan]) w))).
Proof. reflexivity. Qed.

(** ** Closed forms *)

Ltac world_simpl :=
  unfold hand_over, emit, set_chans, set_timers, set_repliesMap; simpl.

Lemma run_call {X} (o : op X) w : run (call o) w = handle o w.
Proof. unfold call. simpl. by destruct (handle o w). Qed.

Lemma run_call_bind {X A} (o : op X) (f : X → prog A) w :
  run (call o ≫= f) w =
  match handle o w with
  | Done x w' => run (f x) w'
  | Panic e => Panic e
  end.
Proof. by rewrite run_bind, run_call. Qed.

Lemma run_send_close {A} c v (rest : prog A) w :
  run (call (ChanSend c v);; call (ChanClose c);; rest) w =
  match chans w !! c with
  | None => Panic NilDereference
  | Some cs =>
      if closed cs then Panic SendOnClosedChannel
      else run rest (hand_over c v cs w)
  end.
Proof.
  rewrite run_call_bind. cbn [handle].
  destruct (chans w !! c) as [cs|] eqn:Hc; [|done].
  destruct (closed cs) eqn:Hcl; [done|].
  rewrite run_call_bind. world_simpl.
  rewrite list_lookup_insert_eq by (by eapply lookup_lt_Some). simpl.
  by rewrite list_insert_insert_eq.
Qed.

Lemma run_cleanReply k w :
  run (cleanReply k) w =
  match repliesMap (router w) !! k with
  | None => Done () w
  | Some e =>
      match chans w !! ch e with
      | None => Panic NilDereference
      | Some cs =>
          if closed cs then Panic SendOnClosedChannel
          else Done () (set_repliesMap (delete k)
                          (hand_over (ch e) (timeout_of e) cs w))
      end
  end.
Proof.
  unfold cleanReply. rewrite run_call_bind. cbn [handle].
  destruct (repliesMap (router w) !! k) as [e|]; [|done].
  rewrite run_send_close.
  destruct (chans w !! ch e) as [cs|]; [|done].
  destruct (closed cs); [done|]. by rewrite run_call.
Qed.

Lemma run_route k m w :
  run (route k m) w =
  match repliesMap (router w) !! k with
  | None => Done () w
  | Some e =>
      match timers w !! timer e with
      | None => Panic NilDereference
      | Some ts =>
          if is_armed (t_status ts) then
            match chans w !! ch e with
            | None => Panic NilDereference
            | Some cs =>
                if closed cs then Panic SendOnClosedChannel
                else Done ()
                       (emit (EAck (DeliveryTag m) false)
                          (set_repliesMap (delete k)
                             (hand_over (ch e) (reply_of e m) cs
                                (set_timers
                                   (<[timer e := set_status Stopped ts]> (timers w))
                                   w))))
            end
          else Done () (emit (EAck (DeliveryTag m) false) w)
      end
  end.
Proof.
  unfold route. rewrite run_call_bind. cbn [handle].
  destruct (repliesMap (router w) !! k) as [e|]; [|done].
  rewrite run_call_bind. cbn [handle].
  destruct (timers w !! timer e) as [ts|]; [|done].
  destruct (is_armed (t_status ts)); cbn [negb]; [|by rewrite run_call].
  rewrite run_send_close. cbn [chans set_timers].
  destruct (chans w !! ch e) as [cs|]; [|done].
  destruct (closed cs); [done|]. rewrite run_call_bind. cbn [handle].
  by rewrite run_call.
Qed.

(** ** The trace *)

Lemma sent_on_snoc c tr e :
  sent_on c (tr ++ [e]) =
  sent_on c tr ++
  match e with
  | ESend c' v => if decide (c' = c) then [v] else []
  | _ => []
  end.
Proof.
  unfold sent_on. rewrite omap_app. f_equal.
  destruct e as [c' v| |]; simpl; [|done..]. by destruct (decide (c' = c)).
Qed.

Lemma closed_in_snoc c tr e :
  closed_in c (tr ++ [e]) =
  closed_in c tr ||
  match e with
  | EClose c' => bool_decide (c' = c)
  | _ => false
  end.
Proof.
  unfold closed_in. rewrite existsb_app. simpl. by rewrite orb_false_r.
Qed.

(** ** The invariant is kept *)

Lemma consistent_init r :
  repliesMap r = ∅ → consistent (init_world r).
Proof.
  intros Hr. split; simpl.
  - intros k e. by rewrite Hr, lookup_empty.
  - intros k1 k2 e1 e2. by rewrite Hr, lookup_empty.
  - intros c cs. by rewrite lookup_nil.
  - done.
Qed.

Lemma consistent_delete k w :
  consistent w → consistent (set_repliesMap (delete k) w).
Proof.
  intros [He Hi Hc Ht]. split; world_simpl.
  - intros k' e [_ Hk]%lookup_delete_Some.
    destruct (He _ _ Hk) as [H1 H2]. by split.
  - intros k1 k2 e1 e2 [_ H1]%lookup_delete_Some [_ H2]%lookup_delete_Some.
    eauto.
  - done.
  - done.
Qed.

Lemma consistent_ack tag multiple w :
  consistent w → consistent (emit (EAck tag multiple) w).
Proof.
  intros [He Hi Hc Ht]. split; world_simpl; [|done..|].
  - intros k e Hk. destruct (He _ _ Hk) as [H1 H2]. by split.
  - intros c. by rewrite sent_on_snoc, closed_in_snoc, app_nil_r, orb_false_r.
Qed.

Lemma consistent_set_timer t ts ts' w :
  consistent w →
  timers w !! t = Some ts →
  t_func ts' = t_func ts →
  (∀ k e, repliesMap (router w) !! k = Some e → timer e = t →
          t_status ts' = Armed ∨ t_status ts' = Fired) →
  consistent (set_timers (<[t := ts']> (timers w)) w).
Proof.
  intros [He Hi Hc Ht] Hts Hf Hst. split; world_simpl; [|done..].
  intros k e Hk. destruct (He _ _ Hk) as [H1 (ts0 & H2 & H3 & H4)].
  split; [done|]. simpl.
  destruct (decide (timer e = t)) as [Heq|Hne].
  - exists ts'. rewrite Heq in *.
    rewrite list_lookup_insert_eq by (by eapply lookup_lt_Some).
    split; [done|]. split; [congruence|]. by eapply Hst.
  - exists ts0. by rewrite list_lookup_insert_ne.
Qed.

Lemma consistent_hand_over c v w :
  consistent w →
  chans w !! c = Some open_chan →
  (∀ k e, repliesMap (router w) !! k = Some e → ch e ≠ c) →
  is_reply v ∨ is_timeout v →
  consistent (hand_over c v open_chan w).
Proof.
  intros [He Hi Hc Ht] Hopen Hfree Hv.
  assert (c < length (chans w))%nat as Hlt by (by eapply lookup_lt_Some).
  split; world_simpl.
  - intros k e Hk. destruct (He _ _ Hk) as [H1 H2]. split; simpl; [|done].
    rewrite list_lookup_insert_ne; [done|]. intros Heq. by eapply Hfree.
  - done.
  - intros c' cs. destruct (decide (c = c')) as [<-|Hne].
    + rewrite list_lookup_insert_eq by done. intros [= <-].
      right. by exists v.
    + rewrite list_lookup_insert_ne by done. apply Hc.
  - intros c'. rewrite !sent_on_snoc, !closed_in_snoc, app_nil_r, orb_false_r.
    destruct (Ht c') as [-> ->].
    destruct (decide (c = c')) as [<-|Hne].
    + rewrite list_lookup_insert_eq, Hopen by done. simpl.
      by rewrite bool_decide_true.
    + rewrite list_lookup_insert_ne by done.
      rewrite bool_decide_false by done. by rewrite app_nil_r, orb_false_r.
Qed.

Lemma consistent_register q k w :
  consistent w →
  consistent
    (set_repliesMap
       (insert k {| query := q; ch := length (chans w);
                    timer := length (timers w) |})
       (set_timers
          (timers w ++ [{| t_status := Armed; t_d := timeout (router w);
                           t_func := CleanReply k |}])
          (set_chans (chans w ++ [open_chan]) w))).
Proof.
  intros [He Hi Hc Ht]. split; world_simpl.
  - intros k' e. destruct (decide (k = k')) as [<-|Hne].
    + rewrite lookup_insert_eq. intros [= <-]. split; simpl.
      * by rewrite lookup_app_r, Nat.sub_diag.
      * eexists. rewrite lookup_app_r, Nat.sub_diag by done. simpl. eauto.
    + rewrite lookup_insert_ne by done. intros Hk.
      destruct (He _ _ Hk) as [H1 (ts & H2 & H3)]. split; simpl.
      * rewrite lookup_app_l; [done|]. by eapply lookup_lt_Some.
      * exists ts. rewrite lookup_app_l; [done|]. by eapply lookup_lt_Some.
  - intros k1 k2 e1 e2 H1 H2 Heq.
    destruct (decide (k1 = k2)) as [|Hne]; [done|]. exfalso.
    destruct (decide (k = k1)) as [<-|Hn1].
    + rewrite lookup_insert_eq in H1. injection H1 as <-.
      rewrite lookup_insert_ne in H2 by done.
      destruct (He _ _ H2) as [H3%lookup_lt_Some _]. simpl in Heq. lia.
    + rewrite lookup_insert_ne in H1 by done.
      destruct (decide (k = k2)) as [<-|Hn2].
      * rewrite lookup_insert_eq in H2. injection H2 as <-.
        destruct (He _ _ H1) as [H3%lookup_lt_Some _]. simpl in Heq. lia.
      * rewrite lookup_insert_ne in H2 by done. eauto.
  - intros c cs [Hcs|[_ Hcs]]%lookup_app_Some; [eauto|].
    apply list_lookup_singleton_Some in Hcs as [_ <-]. by left.
  - intros c. destruct (Ht c) as [-> ->].
    destruct (decide (c < length (chans w))%nat) as [Hlt|Hge].
    + by rewrite lookup_app_l.
    + rewrite (lookup_ge_None_2 (chans w)) by lia. simpl.
      rewrite lookup_app_r by lia.
      by destruct (c - length (chans w))%nat as [|[|n]].
Qed.

Lemma consistent_settle k e t ts ts' v w :
  consistent w →
  repliesMap (router w) !! k = Some e →
  timers w !! t = Some ts →
  t_func ts = CleanReply k →
  t_func ts' = t_func ts →
  is_reply v ∨ is_timeout v →
  consistent
    (set_repliesMap (delete k)
       (hand_over (ch e) v open_chan
          (set_timers (<[t := ts']> (timers w)) w))).
Proof.
  intros Hw Hk Hts Hf Hf' Hv.
  change (consistent
    (hand_over (ch e) v open_chan
       (set_timers (<[t := ts']> (timers w))
          (set_repliesMap (delete k) w)))).
  apply consistent_hand_over; [|by apply (cons_entry _ Hw _ _ Hk)| |done].
  - eapply (consistent_set_timer t ts ts' (set_repliesMap (delete k) w));
      [by apply consistent_delete|done..|].
    intros k' e'. world_simpl. intros [Hne Hk']%lookup_delete_Some Ht.
    destruct (cons_entry _ Hw _ _ Hk') as [_ (ts0 & H1 & H2 & _)].
    congruence.
  - intros k' e'. world_simpl. intros [Hne Hk']%lookup_delete_Some Hc.
    by specialize (cons_chan_inj _ Hw _ _ _ _ Hk Hk' (eq_sym Hc)).
Qed.

Lemma consistent_step hdr a w o :
  consistent w → step hdr a w = Some o →
  ∃ w', o = Done () w' ∧ consistent w'.
Proof.
  intros Hw. destruct a as [q k|msg|t|t]; unfold step.
  - intros Ho%(inj Some); subst o. rewrite run_addReplyToListen. simpl.
    eexists. split; [done|]. by apply consistent_register.
  - intros Ho%(inj Some); subst o. rewrite listen_body_cases.
    destruct (dropped_as_malformed hdr msg).
    { rewrite run_call. simpl. eexists. split; [done|]. by apply consistent_ack. }
    rewrite run_route.
    destruct (repliesMap (router w) !! CorrelationId msg) as [e|] eqn:Hk; [|eauto].
    destruct (cons_entry _ Hw _ _ Hk) as [Hc (ts & Hts & Hf & _)].
    rewrite Hts. destruct (is_armed (t_status ts)).
    + rewrite Hc. simpl. eexists. split; [done|].
      apply consistent_ack. eapply consistent_settle; eauto. by left.
    + eexists. split; [done|]. by apply consistent_ack.
  - destruct (timers w !! t) as [ts|] eqn:Hts; [|done].
    destruct (is_armed (t_status ts)); [|done]. intros Ho%(inj Some); subst o.
    eexists. split; [done|]. eapply consistent_set_timer; eauto.
  - destruct (timers w !! t) as [ts|] eqn:Hts; [|done].
    destruct (is_fired (t_status ts)); [|done]. intros Ho%(inj Some); subst o.
    destruct (t_func ts) as [k] eqn:Hf. cbn [timer_body]. rewrite run_cleanReply.
    world_simpl.
    destruct (repliesMap (router w) !! k) as [e|] eqn:Hk.
    + destruct (cons_entry _ Hw _ _ Hk) as [Hc _]. rewrite Hc. simpl.
      eexists. split; [done|].
      eapply (consistent_settle k e t ts (set_status Returned ts)); eauto.
      right. by eexists.
    + eexists. split; [done|].
      eapply (consistent_set_timer t ts (set_status Returned ts)); eauto.
      intros k' e' Hk' Ht.
      destruct (cons_entry _ Hw _ _ Hk') as [_ (ts0 & H1 & H2 & _)].
      congruence.
Qed.

Lemma reachable_consistent hdr w : reachable hdr w → consistent w.
Proof.
  induction 1 as [appName timeout uuid|w a w' _ IH Hstep].
  - by apply consistent_init.
  - destruct (consistent_step _ _ _ _ IH Hstep) as (w'' & [= <-] & Hw'). done.
Qed.

Lemma reachable_steps hdr l w w' :
  reachable hdr w → steps hdr l w = Some (Done () w') → reachable hdr w'.
Proof.
  revert w. induction l as [|a l IH]; intros w Hw; simpl.
  - by intros [= <-].
  - destruct (step hdr a w) as [[[] w1|]|] eqn:Hstep; [|done..].
    intros Hl. eapply IH; [|done]. by eapply reachable_step.
Qed.

(** ** The sample states are reachable *)

Lemma sample_world_reachable l : reachable sample_header (sample_world l).
Proof.
  unfold sample_world.
  destruct (steps sample_header l (init_world sample_router))
    as [[[] w|]|] eqn:Hl; try apply reachable_init.
  eapply reachable_steps; [apply reachable_init|done].
Qed.

(** ** Timer steps *)

Lemma steps_one hdr a w : steps hdr [a] w = step hdr a w.
Proof. simpl. by destruct (step hdr a w) as [[[] ?|]|]. Qed.

Lemma step_Fire hdr t ts w :
  timers w !! t = Some ts → t_status ts = Armed →
  step hdr (Fire t) w =
  Some (Done () (set_timers (<[t := set_status Fired ts]> (timers w)) w)).
Proof. intros Ht Hs. unfold step. by rewrite Ht, Hs. Qed.

Lemma step_RunTimer hdr t ts w :
  timers w !! t = Some ts → t_status ts = Fired →
  step hdr (RunTimer t) w =
  Some (run (timer_body (t_func ts))
          (set_timers (<[t := set_status Returned ts]> (timers w)) w)).
Proof. intros Ht Hs. unfold step. by rewrite Ht, Hs. Qed.

Lemma steps_fire_run hdr t ts w k :
  timers w !! t = Some ts → t_status ts = Armed → t_func ts = CleanReply k →
  steps hdr [Fire t; RunTimer t] w =
  Some (run (cleanReply k)
          (set_timers (<[t := set_status Returned ts]> (timers w)) w)).
Proof.
  intros Ht Hs Hf.
  change (steps hdr [Fire t; RunTimer t] w) with
    (match step hdr (Fire t) w with
     | Some (Done _ w') => steps hdr [RunTimer t] w'
     | r => r
     end).
  rewrite (step_Fire _ _ _ _ Ht Hs), steps_one.
  rewrite (step_RunTimer _ _ (set_status Fired ts)); [|world_simpl|done].
  - world_simpl. by rewrite list_insert_insert_eq, Hf.
  - apply list_lookup_insert_eq. by eapply lookup_lt_Some.
Qed.

(** ** One instruction at a time *)

(** Left to itself a goroutine does what [run] says. *)
Lemma run_runs_to p w w' : run p w = Done () w' ↔ runs_to p w w'.
Proof.
  split.
  - revert w. induction p as [[]|X o k IH]; intros w; simpl.
    + intros [= <-]. constructor.
    + destruct (handle o w) as [x w1|] eqn:Ho; [|done]. intros Hrun.
      eapply runs_to_step; [|by apply IH]. simpl. by rewrite Ho.
  - induction 1 as [[] w|p w p' w1 w2 Hadv _ IH]; [done|].
    destruct p as [|X o k]; [done|]. simpl in *.
    destruct (handle o w) as [x w3|]; [|done]. by injection Hadv as <- <-.
Qed.

(** ** Goroutines held to a discipline, one instruction at a time *)

Section guarded_runs.

Variable hdr : string.
Variable op_ok : ∀ X, op X → Prop.
Variable res_ok : ∀ X, op X → X → Prop.
Variable I : world → Prop.
Variable allowed : sched → Prop.

Hypothesis handle_ok : ∀ X (o : op X) w x w',
  I w → op_ok X o → handle o w = Done x w' → res_ok X o x ∧ I w'.
Hypothesis call_ok : ∀ q k, allowed (SCall q k) →
  guarded op_ok res_ok (addReplyToListen q k ≫= λ _, mret ()).
Hypothesis deliver_ok : ∀ msg, guarded op_ok res_ok (listen_body hdr msg).
Hypothesis fire_ok : ∀ w t ts,
  I w → timers w !! t = Some ts → is_armed (t_status ts) = true →
  I (set_timers (<[t := set_status Fired ts]> (timers w)) w) ∧
  guarded op_ok res_ok (timer_body (t_func ts)).

Lemma advance_guarded p w p' w' :
  I w → guarded op_ok res_ok p → advance p w = Some (p', w') →
  I w' ∧ guarded op_ok res_ok p'.
Proof using handle_ok.
  destruct p as [u|X o k]; [done|]. intros HI [Hop Hk]. simpl.
  destruct (handle o w) as [x w1|] eqn:Ho; [|done]. intros [= <- <-].
  destruct (handle_ok _ _ _ _ _ HI Hop Ho) as [Hr HI']. split; [done|].
  by apply Hk.
Qed.

Lemma istep_guarded a s s' :
  allowed a → sys_guarded op_ok res_ok I s → istep hdr a s = Some s' →
  sys_guarded op_ok res_ok I s'.
Proof using handle_ok call_ok deliver_ok fire_ok.
  intros Ha (HI & Hc & Ho). destruct a as [q k|msg|t| |i]; simpl.
  - intros [= <-]. split; [done|]. split; [done|]. simpl.
    apply Forall_app. split; [done|]. apply Forall_singleton. by apply call_ok.
  - destruct (finished (consumer s)); [|done]. intros [= <-].
    split; [done|]. split; [apply deliver_ok|done].
  - destruct (timers (sys_world s) !! t) as [ts|] eqn:Ht; [|done].
    destruct (is_armed (t_status ts)) eqn:Hs; [|done]. intros [= <-].
    destruct (fire_ok _ _ _ HI Ht Hs) as [HI' Hg].
    split; [done|]. split; [done|]. simpl.
    apply Forall_app. split; [done|]. by apply Forall_singleton.
  - destruct (advance (consumer s) (sys_world s)) as [[p w']|] eqn:Hadv;
      [|done].
    intros [= <-]. destruct (advance_guarded _ _ _ _ HI Hc Hadv).
    by split.
  - destruct (others s !! i) as [p|] eqn:Hi; [|done].
    destruct (advance p (sys_world s)) as [[p' w']|] eqn:Hadv; [|done].
    intros [= <-].
    assert (guarded op_ok res_ok p) as Hp.
    { eapply Forall_lookup_1; [apply Ho|done]. }
    destruct (advance_guarded _ _ _ _ HI Hp Hadv).
    split; [done|]. split; [done|]. simpl. by apply Forall_insert.
Qed.

Lemma isteps_guarded l s s' :
  Forall allowed l → sys_guarded op_ok res_ok I s →
  isteps hdr l s = Some s' → sys_guarded op_ok res_ok I s'.
Proof using handle_ok call_ok deliver_ok fire_ok.
  intros Hl. revert s. induction Hl as [|a l Ha _ IH]; intros s Hs; simpl.
  - by intros [= <-].
  - destruct (istep hdr a s) as [s1|] eqn:Hstep; [|done].
    apply IH. by eapply istep_guarded.
Qed.

End guarded_runs.

(** ** A channel that no entry and no goroutine holds *)







(** ** An entry stored after its timer has come and gone *)

Lemma stranded_handle k0 e0 X (o : op X) w x w' :
  stranded k0 e0 w → stranded_op k0 e0 X o → handle o w = Done x w' →
  stranded_res k0 e0 X o x ∧ stranded k0 e0 w'.
Proof.
  intros Hw Hop. pose proof Hw as [Hk Hc (ts0 & Ht0 & Hs0) Hoth Htm].
  destruct o; simpl in *.
  - intros [= <- <-]. split; [|done].
    destruct (decide (k = k0)) as [->|Hne]; [done|].
    intros e He. by eapply Hoth.
  - intros [= <- <-]. split; [done|]. destruct Hop as (Hne & Hch & Hti).
    split; simpl; [|done|by exists ts0| |done].
    + by rewrite lookup_insert_ne.
    + intros k' e' Hk'. destruct (decide (k = k')) as [<-|Hne'].
      * rewrite lookup_insert_eq. by intros [= <-].
      * rewrite lookup_insert_ne by done. by apply Hoth.
  - intros [= <- <-]. split; [done|].
    split; simpl; [|done|by exists ts0| |done].
    + by rewrite lookup_delete_ne.
    + intros k' e' Hk' [_ He']%lookup_delete_Some. by eapply Hoth.
  - intros [= <- <-]. done.
  - intros [= <- <-].
    assert (ch e0 < length (chans w))%nat by (by eapply lookup_lt_Some).
    split; [lia|]. split; simpl; [done| |by exists ts0|done|done].
    by rewrite lookup_app_l.
  - intros [= <- <-].
    assert (timer e0 < length (timers w))%nat by (by eapply lookup_lt_Some).
    split; [lia|]. split; simpl; [done|done| |done|].
    + exists ts0. by rewrite lookup_app_l.
    + intros t ts [Ht|[_ Ht]]%lookup_app_Some; [by eapply Htm|].
      destruct (t - length (timers w))%nat; [|done].
      injection Ht as <-. done.
  - destruct (timers w !! t) as [ts|] eqn:Ht; [|done].
    destruct (is_armed (t_status ts)) eqn:Hs; intros [= <- <-].
    + split; [intros ->; congruence|].
      assert (t ≠ timer e0) by (intros ->; congruence).
      split; simpl; [done|done| |done|].
      * exists ts0. by rewrite list_lookup_insert_ne.
      * intros t' ts'. destruct (decide (t = t')) as [<-|Hne].
        -- rewrite list_lookup_insert_eq by (by eapply lookup_lt_Some).
           by intros [= <-].
        -- rewrite list_lookup_insert_ne by done. apply Htm.
    + done.
  - destruct (chans w !! c) as [cs|]; [|done].
    destruct (closed cs); [done|]. intros [= <- <-]. split; [done|].
    split; simpl; [done| |by exists ts0|done|done].
    by rewrite list_lookup_insert_ne.
  - destruct (chans w !! c) as [cs|]; [|done].
    destruct (closed cs); [done|]. intros [= <- <-]. split; [done|].
    split; simpl; [done| |by exists ts0|done|done].
    by rewrite list_lookup_insert_ne.
  - intros [= <- <-]. split; [done|].
    split; simpl; [done|done|by exists ts0|done|done].
Qed.

Lemma stranded_addReplyToListen k0 e0 q k :
  k ≠ k0 →
  guarded (stranded_op k0 e0) (stranded_res k0 e0)
    (addReplyToListen q k ≫= λ _, mret ()).
Proof.
  intros Hne. split; [done|]. intros c Hc. split; [done|]. intros d _.
  split; [simpl; congruence|]. intros t Ht. split; done.
Qed.

Lemma stranded_route k0 e0 k m :
  guarded (stranded_op k0 e0) (stranded_res k0 e0) (route k m).
Proof.
  split; [done|]. intros x Hx. simpl in Hx.
  destruct (decide (k = k0)) as [->|Hne].
  - subst x. split; [done|]. intros b Hb. rewrite (Hb eq_refl).
    split; done.
  - destruct x as [e|]; [|done]. destruct (Hx e eq_refl) as [Hch Hti].
    split; [done|]. intros [] _; simpl.
    + split; [done|]. intros [] _. split; [done|]. intros [] _.
      split; [done|]. intros [] _. split; done.
    + split; done.
Qed.

Lemma stranded_listen_body k0 e0 hdr msg :
  guarded (stranded_op k0 e0) (stranded_res k0 e0) (listen_body hdr msg).
Proof.
  rewrite listen_body_cases. destruct (dropped_as_malformed hdr msg).
  - split; done.
  - apply stranded_route.
Qed.

Lemma stranded_cleanReply k0 e0 k :
  k ≠ k0 →
  guarded (stranded_op k0 e0) (stranded_res k0 e0) (cleanReply k).
Proof.
  intros Hne. split; [done|]. intros x Hx. simpl in Hx.
  rewrite decide_False in Hx by done.
  destruct x as [e|]; [|done]. destruct (Hx e eq_refl) as [Hch Hti].
  split; [done|]. intros [] _. split; [done|]. intros [] _. split; done.
Qed.

Lemma stranded_fire k0 e0 w t ts :
  stranded k0 e0 w → timers w !! t = Some ts →
  is_armed (t_status ts) = true →
  stranded k0 e0 (set_timers (<[t := set_status Fired ts]> (timers w)) w).
Proof.
  intros [Hk Hc (ts0 & Ht0 & Hs0) Hoth Htm] Ht Hs.
  assert (t ≠ timer e0) by (intros ->; congruence).
  split; simpl; [done|done| |done|].
  - exists ts0. by rewrite list_lookup_insert_ne.
  - intros t' ts'. destruct (decide (t = t')) as [<-|Hne].
    + rewrite list_lookup_insert_eq by (by eapply lookup_lt_Some).
      by intros [= <-].
    + rewrite list_lookup_insert_ne by done. apply Htm.
Qed.

Lemma isteps_stranded hdr k0 e0 l s s' :
  Forall (no_reuse k0) l →
  sys_guarded (stranded_op k0 e0) (stranded_res k0 e0) (stranded k0 e0) s →
  isteps hdr l s = Some s' →
  sys_guarded (stranded_op k0 e0) (stranded_res k0 e0) (stranded k0 e0) s'.
Proof.
  intros Hl Hs Hrun.
  eapply (isteps_guarded hdr (stranded_op k0 e0) (stranded_res k0 e0)
            (stranded k0 e0) (no_reuse k0)); [| | | |done|done|done].
  - intros X o w x w'. apply stranded_handle.
  - intros q k Hk. by apply stranded_addReplyToListen.
  - apply stranded_listen_body.
  - intros w t ts Hw Ht Harm. split; [by apply stranded_fire|].
    pose proof (str_timers _ _ _ Hw _ _ Ht Harm) as Hf.
    destruct (t_func ts) as [k]. apply stranded_cleanReply. congruence.
Qed.

Lemma early_fire_end_stranded :
  sys_guarded (stranded_op "abc" early_entry) (stranded_res "abc" early_entry)
    (stranded "abc" early_entry) early_fire_end.
Proof.
  assert (repliesMap (router (sys_world early_fire_end)) =
          {[ "abc" := early_entry ]}) as Htable by (vm_compute; reflexivity).
  assert (timers (sys_world early_fire_end) =
          [{| t_status := Fired; t_d := 45000000000;
              t_func := CleanReply "abc" |}]) as Htimers
    by (vm_compute; reflexivity).
  split; [|split].
  - split.
    + by rewrite Htable.
    + vm_compute; reflexivity.
    + rewrite Htimers. by eexists.
    + rewrite Htable. intros k e Hne Hk.
      by rewrite lookup_singleton_ne in Hk.
    + rewrite Htimers. intros [|t] ts; [|done]. by intros [= <-].
  - exact Logic.I.
  - apply Forall_cons. split; [exact Logic.I|].
    apply Forall_singleton. exact Logic.I.
Qed.

(** * The claims *)

(** C1.  The timer of a wait can fire before the wait is in the table.  On
    the schedule [early_fire_schedule ++ early_fire_rest] the caller of
    [addReplyToListen "q" "abc"] has armed the timer (line 146) and not yet
    stored the entry (line 150) when the deadline elapses; [cleanReply]
    finds nothing under "abc" and returns, and then the caller stores the
    entry.  In the state reached every goroutine has finished, the entry is
    pending with its channel open, and no timer can fire.  From there on,
    whatever replies come in, whatever other waits are registered, answered
    or timed out, and however the goroutines interleave, as long as no
    caller registers "abc" again: the entry stays in the table and its
    channel stays open with nothing delivered, so the caller is handed
    neither a reply nor a timeout.  The schedule [stranded_rest] is one such
    continuation: the reply to "abc" that comes in is acknowledged, and
    that is all. *)
Theorem early_fire_no_outcome :
  isteps sample_header (early_fire_schedule ++ early_fire_rest)
    (init_system sample_router) = Some early_fire_end ∧
  forallb finished (consumer early_fire_end :: others early_fire_end) = true ∧
  repliesMap (router (sys_world early_fire_end)) !! "abc" = Some early_entry ∧
  chans (sys_world early_fire_end) !! 0%nat = Some open_chan ∧
  (∀ t, istep sample_header (SFire t) early_fire_end = None) ∧
  (∃ s', isteps sample_header stranded_rest early_fire_end = Some s' ∧
         ack_calls (trace (sys_world s')) = [(1%N, false)]) ∧
  ∀ l s',
    Forall (no_reuse "abc") l →
    isteps sample_header l early_fire_end = Some s' →
    repliesMap (router (sys_world s')) !! "abc" = Some early_entry ∧
    chans (sys_world s') !! 0%nat = Some open_chan.
Proof.
  split; [vm_compute; reflexivity|]. split; [reflexivity|].
  split; [reflexivity|]. split; [reflexivity|]. split.
  { intros [|t]; reflexivity. }
  split.
  { eexists. split; [vm_compute; reflexivity|]. reflexivity. }
  intros l s' Hl Hrun.
  destruct (isteps_stranded _ _ _ _ _ _ Hl early_fire_end_stranded Hrun)
    as (Hw & _ & _).
  split; [apply Hw|apply (str_chan _ _ _ Hw)].
Qed.

(** C2.  When the native correlation-id field is empty and the header holds
    a value other than the empty string, the loop looks up the key of line
    109, the empty string, and not the header's value: the variable assigned
    on line 111 is local to the [if] block.  With no entry under the empty
    string the delivery is dropped without a trace, whatever is pending under
    the header's value.  (The delivery is acknowledged and dropped as
    malformed exactly when the field is empty and the header is missing or
    the empty string, see [dropped_as_malformed_iff].) *)
Theorem listen_looks_up_native_field hdr msg v w :
  CorrelationId msg = "" →
  Headers msg !! hdr = Some v →
  v ≠ IString "" →
  run (listen_body hdr msg) w = run (route "" msg) w ∧
  (repliesMap (router w) !! "" = None →
   run (listen_body hdr msg) w = Done () w).
Proof.
  intros Hid Hv Hne.
  assert (dropped_as_malformed hdr msg = false) as Hm.
  { apply not_true_is_false. rewrite dropped_as_malformed_iff, Hv.
    intros [_ [[=]|[= ->]]]. done. }
  rewrite listen_body_cases, Hm, Hid. split; [done|apply run_route_absent].
Qed.

Lemma listen_looks_up_native_field_witness :
  let w := sample_world [Call "q" "abc"] in
  let msg := sample_header_reply "abc" in
  repliesMap (router w) !! "abc" =
    Some {| query := "q"; ch := 0%nat; timer := 0%nat |} ∧
  run (listen_body sample_header msg) w = Done () w.
Proof.
  split; [reflexivity|].
  apply (listen_looks_up_native_field sample_header
           (sample_header_reply "abc") (IString "abc")
           (sample_world [Call "q" "abc"])); [reflexivity..|discriminate|].
  reflexivity.
Defined.

(** C3.  When the entry is found but [timer.Stop()] returns false, the loop
    only acknowledges: nothing is sent, no channel is closed, the table and
    the timers are as before, and the iteration does not panic. *)
Theorem listen_lost_race hdr msg e w w1 :
  dropped_as_malformed hdr msg = false →
  repliesMap (router w) !! CorrelationId msg = Some e →
  handle (TimerStop (timer e)) w = Done false w1 →
  w1 = w ∧
  run (listen_body hdr msg) w =
    Done () (emit (EAck (DeliveryTag msg) false) w) ∧
  ∀ w', run (listen_body hdr msg) w = Done () w' →
    repliesMap (router w') = repliesMap (router w) ∧
    chans w' = chans w ∧
    timers w' = timers w ∧
    trace w' = trace w ++ [EAck (DeliveryTag msg) false].
Proof.
  intros Hm Hk Hstop. rewrite listen_body_cases, Hm, run_route, Hk.
  simpl in Hstop. destruct (timers w !! timer e) as [ts|]; [|done].
  destruct (is_armed (t_status ts)); [done|]. injection Hstop as <-.
  split; [done|]. split; [done|]. by intros w' [= <-].
Qed.

Lemma listen_lost_race_witness :
  let w := sample_world [Call "q" "abc"; Fire 0%nat] in
  run (listen_body sample_header (sample_reply "abc")) w =
    Done () (emit (EAck 1 false) w).
Proof.
  apply (listen_lost_race sample_header (sample_reply "abc")
           {| query := "q"; ch := 0%nat; timer := 0%nat |}
           (sample_world [Call "q" "abc"; Fire 0%nat])
           (sample_world [Call "q" "abc"; Fire 0%nat]));
    reflexivity.
Defined.

(** C4.  When the entry is found and [timer.Stop()] returns true, the loop
    hands over through the entry's channel one reply made of the registered
    query, the message body and a nil error, closes the channel, deletes the
    entry and acknowledges the message, in that order; no entry is left
    under the correlation id. *)
Theorem listen_delivers_reply hdr msg e w w1 :
  reachable hdr w →
  dropped_as_malformed hdr msg = false →
  repliesMap (router w) !! CorrelationId msg = Some e →
  handle (TimerStop (timer e)) w = Done true w1 →
  let v := {| reply_query := query e; reply_data := Body msg;
              reply_err := None |} in
  ∃ w',
    run (listen_body hdr msg) w = Done () w' ∧
    chans w' = <[ch e := {| closed := true; delivered := [v] |}]> (chans w) ∧
    chans w' !! ch e = Some {| closed := true; delivered := [v] |} ∧
    repliesMap (router w') = delete (CorrelationId msg) (repliesMap (router w)) ∧
    repliesMap (router w') !! CorrelationId msg = None ∧
    timers w' = timers w1 ∧
    trace w' = trace w ++ [ESend (ch e) v; EClose (ch e);
                           EAck (DeliveryTag msg) false].
Proof.
  intros Hw%reachable_consistent Hm Hk Hstop v.
  destruct (cons_entry _ Hw _ _ Hk) as [Hc _].
  rewrite listen_body_cases, Hm, run_route, Hk.
  simpl in Hstop. destruct (timers w !! timer e) as [ts|]; [|done].
  destruct (is_armed (t_status ts)); [|done]. injection Hstop as <-.
  rewrite Hc. simpl. eexists. split; [done|]. world_simpl.
  split; [done|].
  split; [apply list_lookup_insert_eq; by eapply lookup_lt_Some|].
  split; [done|]. split; [apply lookup_delete_eq|]. split; [done|].
  by rewrite <- !app_assoc.
Qed.

Lemma listen_delivers_reply_witness :
  let w := sample_world [Call "q" "abc"] in
  ∃ w',
    run (listen_body sample_header (sample_reply "abc")) w = Done () w' ∧
    chans w' =
      <[0%nat := {| closed := true;
                    delivered := [{| reply_query := "q";
                                     reply_data := [x7b; x7d]%byte;
                                     reply_err := None |}] |}]> (chans w) ∧
    chans w' !! 0%nat =
      Some {| closed := true;
              delivered := [{| reply_query := "q";
                               reply_data := [x7b; x7d]%byte;
                               reply_err := None |}] |} ∧
    repliesMap (router w') = delete "abc" (repliesMap (router w)) ∧
    repliesMap (router w') !! "abc" = None ∧
    timers w' = [{| t_status := Stopped; t_d := 45000000000;
                    t_func := CleanReply "abc" |}] ∧
    trace w' = trace w ++ [ESend 0 {| reply_query := "q";
                                      reply_data := [x7b; x7d]%byte;
                                      reply_err := None |};
                           EClose 0; EAck 1 false].
Proof.
  apply (listen_delivers_reply sample_header (sample_reply "abc")
           {| query := "q"; ch := 0%nat; timer := 0%nat |}
           (sample_world [Call "q" "abc"])
           (set_timers [{| t_status := Stopped; t_d := 45000000000;
                           t_func := CleanReply "abc" |}]
              (sample_world [Call "q" "abc"]))).
  - apply sample_world_reachable.
  - reflexivity.
  - reflexivity.
  - reflexivity.
Defined.

(** C5.  [cleanReply k] changes nothing when the table has no entry under
    [k]; when it has one it hands a [TimeoutReplyError] over through the
    entry's channel, closes the channel and deletes the entry before it
    returns; running it twice comes to the same as running it once. *)
Theorem cleanReply_once hdr k w :
  reachable hdr w →
  (repliesMap (router w) !! k = None → run (cleanReply k) w = Done () w) ∧
  (∀ e, repliesMap (router w) !! k = Some e →
     let v := {| reply_query := ""; reply_data := [];
                 reply_err := Some (TimeoutReplyError
                   ("timeout while waiting for reply " +:+ query e)) |} in
     ∃ w',
       run (cleanReply k) w = Done () w' ∧
       chans w' = <[ch e := {| closed := true; delivered := [v] |}]> (chans w) ∧
       chans w' !! ch e = Some {| closed := true; delivered := [v] |} ∧
       repliesMap (router w') = delete k (repliesMap (router w)) ∧
       repliesMap (router w') !! k = None ∧
       timers w' = timers w ∧
       trace w' = trace w ++ [ESend (ch e) v; EClose (ch e)]) ∧
  run (cleanReply k;; cleanReply k) w = run (cleanReply k) w.
Proof.
  intros Hw%reachable_consistent. split; [|split].
  - intros Hk. by rewrite run_cleanReply, Hk.
  - intros e Hk v. destruct (cons_entry _ Hw _ _ Hk) as [Hc _].
    rewrite run_cleanReply, Hk, Hc. simpl. eexists. split; [done|].
    world_simpl. split; [done|].
    split; [apply list_lookup_insert_eq; by eapply lookup_lt_Some|].
    split; [done|]. split; [apply lookup_delete_eq|]. split; [done|].
    by rewrite <- !app_assoc.
  - rewrite run_bind.
    destruct (run (cleanReply k) w) as [[] w1|] eqn:Hrun; [|done].
    rewrite run_cleanReply.
    assert (repliesMap (router w1) !! k = None) as ->; [|done].
    rewrite run_cleanReply in Hrun.
    destruct (repliesMap (router w) !! k) as [e|] eqn:Hk.
    + destruct (chans w !! ch e) as [cs|]; [|done].
      destruct (closed cs); [done|]. injection Hrun as <-.
      apply lookup_delete_eq.
    + by injection Hrun as <-.
Qed.

Lemma cleanReply_once_witness :
  let w := sample_world [Call "q" "abc"] in
  run (cleanReply "abc";; cleanReply "abc") w = run (cleanReply "abc") w ∧
  run (cleanReply "xyz") w = Done () w.
Proof.
  split.
  - apply (cleanReply_once sample_header "abc" (sample_world [Call "q" "abc"])).
    apply sample_world_reachable.
  - apply (cleanReply_once sample_header "xyz" (sample_world [Call "q" "abc"]));
      [apply sample_world_reachable|reflexivity..].
Defined.

(** C6. [addReplyToListen query correlationId] makes a fresh channel, starts
    a timer for the router's timeout whose function is
    [cleanReply correlationId] (firing it and letting its goroutine run
    executes exactly that), stores under [correlationId] an entry with that
    query, channel and timer, and returns the channel. *)
Theorem addReplyToListen_registers hdr query correlationId w :
  ∃ c t w',
    run (addReplyToListen query correlationId) w = Done c w' ∧
    chans w !! c = None ∧
    chans w' !! c = Some open_chan ∧
    timers w !! t = None ∧
    timers w' !! t = Some {| t_status := Armed; t_d := timeout (router w);
                             t_func := CleanReply correlationId |} ∧
    repliesMap (router w') =
      <[correlationId := {| query := query; ch := c; timer := t |}]>
        (repliesMap (router w)) ∧
    steps hdr [Fire t; RunTimer t] w' =
      Some (run (cleanReply correlationId)
              (set_timers
                 (<[t := {| t_status := Returned; t_d := timeout (router w);
                            t_func := CleanReply correlationId |}]>
                    (timers w')) w')).
Proof.
  eexists (length (chans w)), (length (timers w)), _.
  split; [apply run_addReplyToListen|].
  split; [by apply lookup_ge_None_2|].
  split; [world_simpl; by rewrite lookup_app_r, Nat.sub_diag|].
  split; [by apply lookup_ge_None_2|].
  split; [world_simpl; by rewrite lookup_app_r, Nat.sub_diag|].
  split; [done|].
  apply (steps_fire_run hdr (length (timers w))
           {| t_status := Armed; t_d := timeout (router w);
              t_func := CleanReply correlationId |}); [|done..].
  world_simpl. by rewrite lookup_app_r, Nat.sub_diag.
Qed.

(** C7.  When the key looked up has no entry, the iteration changes nothing
    at all: the table is as before and nothing is sent, and no
    acknowledgement is made either. *)
Theorem listen_unknown_id hdr msg w :
  dropped_as_malformed hdr msg = false →
  repliesMap (router w) !! CorrelationId msg = None →
  run (listen_body hdr msg) w = Done () w ∧
  ∀ w', run (listen_body hdr msg) w = Done () w' →
    repliesMap (router w') = repliesMap (router w) ∧
    chans w' = chans w ∧
    acks (trace w') = acks (trace w).
Proof.
  intros Hm Hk. rewrite listen_body_cases, Hm, run_route_absent by done.
  split; [done|]. by intros w' [= <-].
Qed.

Lemma listen_unknown_id_witness :
  let w := sample_world [Call "q" "abc"] in
  run (listen_body sample_header (sample_reply "xyz")) w = Done () w ∧
  acks (trace w) = [].
Proof.
  split; [|reflexivity].
  apply (listen_unknown_id sample_header (sample_reply "xyz")
           (sample_world [Call "q" "abc"])); reflexivity.
Defined.

(** C8. [newReplyRouter] warns exactly when the timeout is below 500
    milliseconds; the identity it derives is the application name, a dot and
    the UUID; [listen] declares the reply queue under that identity and binds
    the declared queue to the shared reply exchange with that identity as
    routing key. *)
Theorem newReplyRouter_identity appName timeout uuid exchange b name :
  on_Channel b = None →
  on_QueueDeclare b = inr name →
  let r := (newReplyRouter appName timeout uuid).1 in
  ((newReplyRouter appName timeout uuid).2 = [Warn short_timeout_warning]
     ↔ timeout < 500000000) ∧
  ((newReplyRouter appName timeout uuid).2 = [] ↔ 500000000 ≤ timeout) ∧
  router_id r = appName +:+ "." +:+ uuid ∧
  ∃ rest,
    (listen exchange r b).1 =
      QueueDeclare (router_id r) true false true false ::
      QueueBind name (router_id r) exchange false :: rest.
Proof.
  intros Hch Hq. simpl. unfold listen. rewrite Hch, Hq. simpl.
  change (Millisecond * 500) with 500000000.
  split; [|split; [|split; [done|]]].
  - case_bool_decide; split; (done || lia).
  - case_bool_decide; split; (done || lia).
  - destruct (on_QueueBind b); [by eexists|].
    destruct (on_Qos b); [by eexists|]. destruct (on_Consume b); by eexists.
Qed.

Lemma newReplyRouter_identity_witness :
  router_id sample_router =
    "testingPublisherApp.6ba7b810-9dad-11d1-80b4-00c04fd430c8" ∧
  ∃ rest,
    (listen "globalReply" sample_router sample_broker).1 =
      QueueDeclare (router_id sample_router) true false true false ::
      QueueBind (router_id sample_router) (router_id sample_router)
        "globalReply" false :: rest.
Proof.
  split; [reflexivity|].
  apply (newReplyRouter_identity "testingPublisherApp" 45000000000
           "6ba7b810-9dad-11d1-80b4-00c04fd430c8" "globalReply" sample_broker
           (router_id sample_router)); reflexivity.
Defined.

(** C9.  Nothing keeps the goroutines out of each other's way.  On the
    schedule [race_schedule] the consumer loop, having sent the reply to
    "abc", and the [cleanReply] of the timer of "xyz", having sent the
    timeout, are both about to [delete] from [r.repliesMap].  On the schedule
    [early_fire_schedule] a caller is about to store the entry "abc" while
    the [cleanReply] of its timer is about to look "abc" up. *)
Theorem table_accesses_race :
  (∃ s p,
     isteps sample_header race_schedule (init_system sample_router) = Some s ∧
     next_access (consumer s) = Some (WriteKey "abc") ∧
     others s !! 2%nat = Some p ∧
     next_access p = Some (WriteKey "xyz") ∧
     racing s = true) ∧
  (∃ s p q,
     isteps sample_header early_fire_schedule (init_system sample_router)
       = Some s ∧
     others s !! 0%nat = Some p ∧
     next_access p = Some (WriteKey "abc") ∧
     others s !! 1%nat = Some q ∧
     next_access q = Some (ReadKey "abc") ∧
     racing s = true).
Proof.
  split.
  - eexists _, _. split; [vm_compute; reflexivity|].
    repeat split; reflexivity.
  - eexists _, _, _. split; [vm_compute; reflexivity|].
    repeat split; reflexivity.
Qed.

(** What the second schedule leads to when [cleanReply] gets to the map
    first: it finds nothing and returns, the caller stores the entry, and the
    entry is left with a timer that cannot fire again and whose function has
    returned; a reply that comes in now loses to [timer.Stop()]. *)
Lemma early_fire_strands_entry :
  ∃ s,
    isteps sample_header (early_fire_schedule ++ early_fire_rest)
      (init_system sample_router) = Some s ∧
    forallb finished (consumer s :: others s) = true ∧
    repliesMap (router (sys_world s)) !! "abc" =
      Some {| query := "q"; ch := 0%nat; timer := 0%nat |} ∧
    chans (sys_world s) !! 0%nat = Some open_chan ∧
    istep sample_header (SFire 0) s = None ∧
    run (listen_body sample_header (sample_reply "abc")) (sys_world s) =
      Done () (emit (EAck 1 false) (sys_world s)).
Proof.
  eexists. split; [vm_compute; reflexivity|]. repeat split; reflexivity.
Qed.




(** * Further properties *)

(** X1.  Once the broker channel is open, [listen] makes its calls in the
    order declare, bind, qos, consume and stops at the first one the broker
    refuses: it returns that call's error and makes no call after it.  It
    returns nil, with the consumer goroutine started, only after all four
    calls succeeded; the queue bound and consumed is the one the broker
    declared, the prefetch count is 15 and the consumer is registered under
    the router's identity with automatic acknowledgement. *)
Theorem listen_stops_at_first_error exchange r b :
  on_Channel b = None →
  let calls := (listen exchange r b).1 in
  match (listen exchange r b).2 with
  | ListenAborted => False
  | ListenReturn (Some err) =>
      ∃ before c,
        calls = before ++ [c] ∧
        answer_to b c = Some err ∧
        Forall (λ c', answer_to b c' = None) before
  | ListenReturn None =>
      Forall (λ c', answer_to b c' = None) calls ∧
      ∃ name,
        on_QueueDeclare b = inr name ∧
        calls = [QueueDeclare (router_id r) true false true false;
                 QueueBind name (router_id r) exchange false;
                 Qos 15 0 false;
                 Consume name (router_id r) true false false false]
  end.
Proof.
  intros Hch. unfold listen. rewrite Hch.
  destruct (on_QueueDeclare b) as [e1|name] eqn:H1; simpl.
  { exists [], (QueueDeclare (router_id r) true false true false).
    simpl. by rewrite H1. }
  destruct (on_QueueBind b) as [e2|] eqn:H2; simpl.
  { exists [QueueDeclare (router_id r) true false true false],
      (QueueBind name (router_id r) exchange false).
    split; [done|]. split; [done|]. repeat constructor. simpl. by rewrite H1. }
  destruct (on_Qos b) as [e3|] eqn:H3; simpl.
  { exists [QueueDeclare (router_id r) true false true false;
            QueueBind name (router_id r) exchange false], (Qos 15 0 false).
    split; [done|]. split; [done|].
    repeat constructor; simpl; [by rewrite H1|done]. }
  destruct (on_Consume b) as [e4|] eqn:H4; simpl.
  { exists [QueueDeclare (router_id r) true false true false;
            QueueBind name (router_id r) exchange false; Qos 15 0 false],
      (Consume name (router_id r) true false false false).
    split; [done|]. split; [done|].
    repeat constructor; simpl; [by rewrite H1|done..]. }
  split; [|by exists name].
  repeat constructor; simpl; [by rewrite H1|done..].
Qed.

Lemma listen_stops_at_first_error_witness :
  (listen "globalReply" sample_router
     {| on_Channel := None;
        on_QueueDeclare := inr (router_id sample_router);
        on_QueueBind := Some (AmqpError 404 "NOT_FOUND");
        on_Qos := None;
        on_Consume := None |}).2 = ListenReturn (Some (AmqpError 404 "NOT_FOUND")) ∧
  ∃ before c,
    (listen "globalReply" sample_router
       {| on_Channel := None;
          on_QueueDeclare := inr (router_id sample_router);
          on_QueueBind := Some (AmqpError 404 "NOT_FOUND");
          on_Qos := None;
          on_Consume := None |}).1 = before ++ [c] ∧
    length before = 1%nat.
Proof.
  split; [reflexivity|].
  pose proof (listen_stops_at_first_error "globalReply" sample_router
    {| on_Channel := None;
       on_QueueDeclare := inr (router_id sample_router);
       on_QueueBind := Some (AmqpError 404 "NOT_FOUND");
       on_Qos := None;
       on_Consume := None |} eq_refl) as H.
  simpl in H. destruct H as (before & c & H1 & _ & _).
  exists before, c. split; [exact H1|].
  apply (f_equal length) in H1. rewrite length_app in H1. simpl in H1. lia.
Defined.

(** ** Strings *)

Lemma string_app_inj_suffix (a1 a2 u1 u2 : string) :
  String.length u1 = String.length u2 →
  a1 +:+ u1 = a2 +:+ u2 → a1 = a2 ∧ u1 = u2.
Proof.
  assert (∀ a u, String.length (a +:+ u)
                 = (String.length a + String.length u)%nat) as Hlen.
  { intros a u. induction a as [|x a IH]; [done|].
    change (S (String.length (a +:+ u)) = S (String.length a + String.length u)).
    by rewrite IH. }
  revert a2. induction a1 as [|x1 a1 IH]; intros [|x2 a2] Hu.
  - done.
  - change (u1 = String x2 (a2 +:+ u2) → "" = String x2 a2 ∧ u1 = u2).
    intros ->. change (S (String.length (a2 +:+ u2)) = String.length u2) in Hu.
    rewrite Hlen in Hu. lia.
  - change (String x1 (a1 +:+ u1) = u2 → String x1 a1 = "" ∧ u1 = u2).
    intros <-. change (String.length u1 = S (String.length (a1 +:+ u1))) in Hu.
    rewrite Hlen in Hu. lia.
  - change (String x1 (a1 +:+ u1) = String x2 (a2 +:+ u2) →
            String x1 a1 = String x2 a2 ∧ u1 = u2).
    intros [= -> Heq]. destruct (IH _ Hu Heq) as [-> ->]. done.
Qed.

(** X2.  The identity [newReplyRouter] derives determines both of its parts
    when the UUIDs have one length (as the strings of [uuid.NewString()] do):
    two routers share a reply queue name only if they were made for the same
    application name with the same UUID. *)
Theorem newReplyRouter_id_injective appName1 appName2 t1 t2 uuid1 uuid2 :
  String.length uuid1 = String.length uuid2 →
  router_id (newReplyRouter appName1 t1 uuid1).1 =
  router_id (newReplyRouter appName2 t2 uuid2).1 →
  appName1 = appName2 ∧ uuid1 = uuid2.
Proof.
  intros Hlen Hid.
  change (appName1 +:+ ("." +:+ uuid1) = appName2 +:+ ("." +:+ uuid2)) in Hid.
  apply string_app_inj_suffix in Hid as [-> Hu].
  - split; [done|]. by apply (inj (String.app ".")) in Hu.
  - change (S (String.length uuid1) = S (String.length uuid2)). by rewrite Hlen.
Qed.

Lemma newReplyRouter_id_injective_witness :
  router_id (newReplyRouter "orders" 1000000000
               "6ba7b810-9dad-11d1-80b4-00c04fd430c8").1 ≠
  router_id (newReplyRouter "orders" 1000000000
               "6ba7b811-9dad-11d1-80b4-00c04fd430c8").1.
Proof.
  intros Hid.
  destruct (newReplyRouter_id_injective "orders" "orders"
              1000000000 1000000000
              "6ba7b810-9dad-11d1-80b4-00c04fd430c8"
              "6ba7b811-9dad-11d1-80b4-00c04fd430c8" eq_refl Hid) as [_ Hu].
  discriminate Hu.
Defined.

(** ** Register, then settle *)

(** X3.  Registering a wait and then consuming the reply that carries its
    correlation id in the native field hands the reply, with the registered
    query and the message body, over through the channel that
    [addReplyToListen] returned, and through no other; the timer is stopped,
    the message acknowledged, and the table is the old one without the key:
    the very table from before when the id was new. *)
Theorem register_then_reply hdr query msg w :
  CorrelationId msg ≠ "" →
  let k := CorrelationId msg in
  let c := length (chans w) in
  let v := {| reply_query := query; reply_data := Body msg;
              reply_err := None |} in
  ∃ w',
    run (c' ← addReplyToListen query k; listen_body hdr msg;; mret c') w
      = Done c w' ∧
    chans w' = chans w ++ [{| closed := true; delivered := [v] |}] ∧
    timers w' = timers w ++ [{| t_status := Stopped;
                                t_d := timeout (router w);
                                t_func := CleanReply k |}] ∧
    repliesMap (router w') = delete k (repliesMap (router w)) ∧
    (repliesMap (router w) !! k = None →
     repliesMap (router w') = repliesMap (router w)) ∧
    trace w' = trace w ++ [ESend c v; EClose c; EAck (DeliveryTag msg) false].
Proof.
  intros Hk k c v.
  assert (dropped_as_malformed hdr msg = false) as Hm.
  { unfold dropped_as_malformed. by rewrite bool_decide_false. }
  rewrite run_bind, run_addReplyToListen, run_bind.
  rewrite listen_body_cases, Hm, run_route. world_simpl.
  rewrite lookup_insert_eq. simpl.
  rewrite !lookup_app_r, !Nat.sub_diag by done. simpl.
  eexists. split; [done|]. simpl.
  split; [|split; [|split; [|split]]].
  - rewrite insert_app_r_alt, Nat.sub_diag by done. done.
  - rewrite insert_app_r_alt, Nat.sub_diag by done. done.
  - apply delete_insert_eq.
  - intros Hnone. rewrite delete_insert_eq. by apply delete_id.
  - by rewrite <- !app_assoc.
Qed.

Lemma register_then_reply_witness :
  ∃ w',
    run (c' ← addReplyToListen "q" "abc";
         listen_body sample_header (sample_reply "abc");; mret c')
      (init_world sample_router) = Done 0%nat w' ∧
    chans w' = [{| closed := true;
                   delivered := [{| reply_query := "q";
                                    reply_data := [x7b; x7d]%byte;
                                    reply_err := None |}] |}] ∧
    repliesMap (router w') = ∅.
Proof.
  destruct (register_then_reply sample_header "q" (sample_reply "abc")
              (init_world sample_router))
    as (w' & H1 & H2 & _ & _ & H3 & _); [discriminate|].
  exists w'. split; [exact H1|]. split; [exact H2|]. apply H3. reflexivity.
Defined.

(** X4.  Registering a wait and then letting its deadline pass (the timer
    fires and its goroutine runs) hands one [TimeoutReplyError], whose
    message names the registered query, over through the returned channel and
    closes it; nothing is acknowledged, and the table is the old one without
    the key.  This holds in every state and for every correlation id. *)
Theorem register_then_timeout hdr query k w :
  let c := length (chans w) in
  let t := length (timers w) in
  let v := {| reply_query := ""; reply_data := [];
              reply_err := Some (TimeoutReplyError
                ("timeout while waiting for reply " +:+ query)) |} in
  ∃ w',
    steps hdr [Call query k; Fire t; RunTimer t] w = Some (Done () w') ∧
    chans w' = chans w ++ [{| closed := true; delivered := [v] |}] ∧
    timers w' = timers w ++ [{| t_status := Returned;
                                t_d := timeout (router w);
                                t_func := CleanReply k |}] ∧
    repliesMap (router w') = delete k (repliesMap (router w)) ∧
    (repliesMap (router w) !! k = None →
     repliesMap (router w') = repliesMap (router w)) ∧
    trace w' = trace w ++ [ESend c v; EClose c].
Proof.
  intros c t v.
  change (steps hdr [Call query k; Fire t; RunTimer t] w) with
    (match step hdr (Call query k) w with
     | Some (Done _ w') => steps hdr [Fire t; RunTimer t] w'
     | r => r
     end).
  unfold step at 1. rewrite run_addReplyToListen. cbn [forget].
  rewrite (steps_fire_run hdr t
             {| t_status := Armed; t_d := timeout (router w);
                t_func := CleanReply k |} _ k); [|world_simpl|done..].
  2:{ by rewrite lookup_app_r, Nat.sub_diag. }
  rewrite run_cleanReply. world_simpl.
  rewrite lookup_insert_eq. simpl.
  rewrite lookup_app_r, Nat.sub_diag by done. simpl.
  eexists. split; [done|]. simpl.
  split; [|split; [|split; [|split]]].
  - rewrite insert_app_r_alt, Nat.sub_diag by done. done.
  - rewrite insert_app_r_alt, Nat.sub_diag by done. done.
  - apply delete_insert_eq.
  - intros Hnone. rewrite delete_insert_eq. by apply delete_id.
  - by rewrite <- !app_assoc.
Qed.

Lemma register_then_timeout_witness :
  ∃ w',
    steps sample_header [Call "q" "abc"; Fire 0%nat; RunTimer 0%nat]
      (init_world sample_router) = Some (Done () w') ∧
    chans w' =
      [{| closed := true;
          delivered := [{| reply_query := ""; reply_data := [];
                           reply_err := Some (TimeoutReplyError
                             "timeout while waiting for reply q") |}] |}].
Proof.
  destruct (register_then_timeout sample_header "q" "abc"
              (init_world sample_router)) as (w' & H1 & H2 & _).
  exists w'. split; [exact H1|exact H2].
Defined.

(** ** What a step leaves alone *)

Lemma hand_over_frame k c v cs w1 :
  let w' := set_repliesMap (delete k) (hand_over c v cs w1) in
  router_id (router w') = router_id (router w1) ∧
  timeout (router w') = timeout (router w1) ∧
  length (chans w') = length (chans w1) ∧
  timers w' = timers w1 ∧
  (∀ k', k' ≠ k → repliesMap (router w') !! k' = repliesMap (router w1) !! k') ∧
  (∀ c', c' ≠ c → chans w' !! c' = chans w1 !! c').
Proof.
  world_simpl. split; [done|]. split; [done|].
  split; [by rewrite length_insert|]. split; [done|]. split.
  - intros k' Hne. by rewrite lookup_delete_ne.
  - intros c' Hne. by rewrite list_lookup_insert_ne.
Qed.

(** X5.  An iteration of the consumer loop touches the wait of one
    correlation id only.  Whatever the delivery, the entries under every
    other key are as before, so are all channels except the one of the entry
    found and all timers except that entry's; no channel or timer is made,
    and the router's identity and timeout are as before. *)
Theorem listen_body_frame hdr msg w w' :
  run (listen_body hdr msg) w = Done () w' →
  router_id (router w') = router_id (router w) ∧
  timeout (router w') = timeout (router w) ∧
  length (chans w') = length (chans w) ∧
  length (timers w') = length (timers w) ∧
  (∀ k', k' ≠ CorrelationId msg →
     repliesMap (router w') !! k' = repliesMap (router w) !! k') ∧
  (∀ c, (∀ e, repliesMap (router w) !! CorrelationId msg = Some e → c ≠ ch e) →
     chans w' !! c = chans w !! c) ∧
  (∀ t, (∀ e, repliesMap (router w) !! CorrelationId msg = Some e → t ≠ timer e) →
     timers w' !! t = timers w !! t).
Proof.
  rewrite listen_body_cases.
  destruct (dropped_as_malformed hdr msg).
  { rewrite run_call. by intros [= <-]. }
  rewrite run_route.
  destruct (repliesMap (router w) !! CorrelationId msg) as [e|] eqn:Hk;
    [|by intros [= <-]].
  destruct (timers w !! timer e) as [ts|] eqn:Hts; [|done].
  destruct (is_armed (t_status ts)); [|by intros [= <-]].
  destruct (chans w !! ch e) as [cs|]; [|done].
  destruct (closed cs); [done|]. intros [= <-].
  destruct (hand_over_frame (CorrelationId msg) (ch e) (reply_of e msg) cs
              (set_timers (<[timer e:=set_status Stopped ts]> (timers w)) w))
    as (H1 & H2 & H3 & H4 & H5 & H6).
  split; [exact H1|]. split; [exact H2|]. split; [exact H3|].
  change (timers (emit ?ev ?x)) with (timers x).
  change (chans (emit ?ev ?x)) with (chans x).
  rewrite H4. world_simpl.
  split; [by rewrite length_insert|]. split; [exact H5|]. split.
  - intros c Hc. apply H6. by apply Hc.
  - intros t Ht. rewrite list_lookup_insert_ne; [done|].
    intros Heq. by apply (Ht e).
Qed.

Lemma listen_body_frame_witness :
  let w := sample_world [Call "q1" "abc"; Call "q2" "xyz"] in
  let w' := state_after
              (run (listen_body sample_header (sample_reply "abc")) w) w in
  repliesMap (router w') !! "abc" = None ∧
  repliesMap (router w') !! "xyz" = repliesMap (router w) !! "xyz" ∧
  chans w' !! 1%nat = chans w !! 1%nat ∧
  timers w' !! 1%nat = timers w !! 1%nat.
Proof.
  intros w w'. split; [reflexivity|].
  destruct (listen_body_frame sample_header (sample_reply "abc") w w' eq_refl)
    as (_ & _ & _ & _ & H1 & H2 & H3).
  split; [by apply H1|]. split.
  - apply H2. intros e [= <-]. discriminate.
  - apply H3. intros e [= <-]. discriminate.
Defined.

(** X6.  [cleanReply k] touches the wait of [k] only: entries under other
    keys, channels other than the one of the entry under [k], and all timers
    are as before; it makes no channel and acknowledges nothing. *)
Theorem cleanReply_frame k w w' :
  run (cleanReply k) w = Done () w' →
  router_id (router w') = router_id (router w) ∧
  timeout (router w') = timeout (router w) ∧
  length (chans w') = length (chans w) ∧
  timers w' = timers w ∧
  acks (trace w') = acks (trace w) ∧
  (∀ k', k' ≠ k →
     repliesMap (router w') !! k' = repliesMap (router w) !! k') ∧
  (∀ c, (∀ e, repliesMap (router w) !! k = Some e → c ≠ ch e) →
     chans w' !! c = chans w !! c).
Proof.
  rewrite run_cleanReply.
  destruct (repliesMap (router w) !! k) as [e|] eqn:Hk; [|by intros [= <-]].
  destruct (chans w !! ch e) as [cs|]; [|done].
  destruct (closed cs); [done|]. intros [= <-].
  destruct (hand_over_frame k (ch e) (timeout_of e) cs w)
    as (H1 & H2 & H3 & H4 & H5 & H6).
  split; [exact H1|]. split; [exact H2|]. split; [exact H3|].
  split; [exact H4|]. split; [|split; [exact H5|]].
  - world_simpl. unfold acks. by rewrite !omap_app, !app_nil_r.
  - intros c Hc. apply H6. by apply Hc.
Qed.

Lemma cleanReply_frame_witness :
  let w := sample_world [Call "q1" "abc"; Call "q2" "xyz"] in
  let w' := state_after (run (cleanReply "abc") w) w in
  repliesMap (router w') !! "abc" = None ∧
  repliesMap (router w') !! "xyz" = repliesMap (router w) !! "xyz" ∧
  chans w' !! 1%nat = chans w !! 1%nat.
Proof.
  intros w w'. split; [reflexivity|].
  destruct (cleanReply_frame "abc" w w' eq_refl) as (_ & _ & _ & _ & _ & H1 & H2).
  split; [by apply H1|]. apply H2. intros e [= <-]. discriminate.
Defined.

(** ** Acknowledgements *)

Lemma ack_calls_snoc tr e :
  ack_calls (tr ++ [e]) =
  ack_calls tr ++ match e with EAck tag m => [(tag, m)] | _ => [] end.
Proof. unfold ack_calls. rewrite omap_app. f_equal. by destruct e. Qed.

Lemma ack_calls_hand_over k c v cs w :
  ack_calls (trace (set_repliesMap (delete k) (hand_over c v cs w))) =
  ack_calls (trace w).
Proof. world_simpl. by rewrite !ack_calls_snoc, !app_nil_r. Qed.

(** X7.  A step acknowledges at most once, and only an iteration of the
    consumer loop does: it acknowledges the delivery it took, with
    [multiple] false, exactly when the delivery is malformed or an entry is
    found under the key looked up; registering, a timer firing and
    [cleanReply] acknowledge nothing. *)
Theorem step_ack_calls hdr a w w' :
  step hdr a w = Some (Done () w') →
  ack_calls (trace w') =
  ack_calls (trace w) ++
  match a with
  | Deliver msg =>
      if dropped_as_malformed hdr msg
         || bool_decide (is_Some (repliesMap (router w) !! CorrelationId msg))
      then [(DeliveryTag msg, false)] else []
  | _ => []
  end.
Proof.
  destruct a as [q k|msg|t|t]; unfold step.
  - rewrite run_addReplyToListen. intros [= <-]. by rewrite app_nil_r.
  - intros Hrun%(inj Some). revert Hrun. rewrite listen_body_cases.
    destruct (dropped_as_malformed hdr msg); cbn [orb].
    { rewrite run_call. intros [= <-]. apply ack_calls_snoc. }
    rewrite run_route.
    destruct (repliesMap (router w) !! CorrelationId msg) as [e|] eqn:Hk.
    2:{ intros [= <-]. rewrite bool_decide_false, app_nil_r; [done|].
        by intros [? [=]]. }
    rewrite bool_decide_true by by eexists.
    destruct (timers w !! timer e) as [ts|]; [|done].
    destruct (is_armed (t_status ts)).
    + destruct (chans w !! ch e) as [cs|]; [|done].
      destruct (closed cs); [done|]. intros [= <-].
      change (trace (emit ?ev ?x)) with (trace x ++ [ev]).
      by rewrite ack_calls_snoc, ack_calls_hand_over.
    + intros [= <-]. apply ack_calls_snoc.
  - destruct (timers w !! t) as [ts|]; [|done].
    destruct (is_armed (t_status ts)); [|done]. intros [= <-].
    by rewrite app_nil_r.
  - destruct (timers w !! t) as [ts|]; [|done].
    destruct (is_fired (t_status ts)); [|done]. intros Hrun%(inj Some).
    revert Hrun. destruct (t_func ts) as [k]. cbn [timer_body].
    rewrite run_cleanReply.
    change (repliesMap (router (set_timers ?x w))) with (repliesMap (router w)).
    change (chans (set_timers ?x w)) with (chans w).
    destruct (repliesMap (router w) !! k) as [e|];
      [|intros [= <-]; by rewrite app_nil_r].
    destruct (chans w !! ch e) as [cs|]; [|done].
    destruct (closed cs); [done|]. intros [= <-].
    by rewrite ack_calls_hand_over, app_nil_r.
Qed.

Lemma step_ack_calls_witness :
  let w := sample_world [Call "q" "abc"] in
  ack_calls (trace (state_after
     (run (listen_body sample_header (sample_reply "abc")) w) w)) = [(1%N, false)] ∧
  ack_calls (trace (state_after
     (run (listen_body sample_header (sample_reply "xyz")) w) w)) = [].
Proof.
  intros w. split.
  - apply (step_ack_calls sample_header (Deliver (sample_reply "abc")) w
             (state_after
                (run (listen_body sample_header (sample_reply "abc")) w) w)).
    reflexivity.
  - apply (step_ack_calls sample_header (Deliver (sample_reply "xyz")) w
             (state_after
                (run (listen_body sample_header (sample_reply "xyz")) w) w)).
    reflexivity.
Defined.

(** ** What a function body leaves of the router and the timers *)

Lemma listen_body_shape hdr msg w w' :
  run (listen_body hdr msg) w = Done () w' →
  router_id (router w') = router_id (router w) ∧
  timeout (router w') = timeout (router w) ∧
  length (timers w') = length (timers w).
Proof.
  rewrite listen_body_cases.
  destruct (dropped_as_malformed hdr msg).
  { rewrite run_call. by intros [= <-]. }
  rewrite run_route.
  destruct (repliesMap (router w) !! CorrelationId msg) as [e|];
    [|by intros [= <-]].
  destruct (timers w !! timer e) as [ts|]; [|done].
  destruct (is_armed (t_status ts)); [|by intros [= <-]].
  destruct (chans w !! ch e) as [cs|]; [|done].
  destruct (closed cs); [done|]. intros [= <-]. world_simpl.
  by rewrite length_insert.
Qed.

Lemma cleanReply_shape k w w' :
  run (cleanReply k) w = Done () w' →
  router_id (router w') = router_id (router w) ∧
  timeout (router w') = timeout (router w) ∧
  timers w' = timers w.
Proof.
  rewrite run_cleanReply.
  destruct (repliesMap (router w) !! k) as [e|]; [|by intros [= <-]].
  destruct (chans w !! ch e) as [cs|]; [|done].
  destruct (closed cs); [done|]. by intros [= <-].
Qed.

(** ** Timers *)

Lemma timer_moved_refl s : timer_moved s s = true.
Proof. by destruct s. Qed.

Lemma timer_moved_trans s1 s2 s3 :
  timer_moved s1 s2 = true → timer_moved s2 s3 = true →
  timer_moved s1 s3 = true.
Proof. by destruct s1, s2, s3. Qed.

Lemma step_router hdr a w w' :
  step hdr a w = Some (Done () w') →
  router_id (router w') = router_id (router w) ∧
  timeout (router w') = timeout (router w).
Proof.
  destruct a as [q k|msg|t|t]; unfold step.
  - rewrite run_addReplyToListen. by intros [= <-].
  - intros Hrun%(inj Some).
    by destruct (listen_body_shape _ _ _ _ Hrun) as (? & ? & _).
  - destruct (timers w !! t) as [ts|]; [|done].
    destruct (is_armed (t_status ts)); [|done]. by intros [= <-].
  - destruct (timers w !! t) as [ts|]; [|done].
    destruct (is_fired (t_status ts)); [|done]. intros Hrun%(inj Some).
    destruct (t_func ts) as [k]. cbn [timer_body] in Hrun.
    by destruct (cleanReply_shape _ _ _ Hrun) as (? & ? & _).
Qed.

Lemma step_timer hdr a w w' t ts :
  step hdr a w = Some (Done () w') →
  timers w !! t = Some ts →
  ∃ ts',
    timers w' !! t = Some ts' ∧
    t_d ts' = t_d ts ∧ t_func ts' = t_func ts ∧
    timer_moved (t_status ts) (t_status ts') = true.
Proof.
  intros Hstep Ht.
  assert (t < length (timers w))%nat as Hlt by (by eapply lookup_lt_Some).
  assert (∀ t0 ts0 s,
            timers w !! t0 = Some ts0 →
            timer_moved (t_status ts0) s = true →
            ∃ ts', <[t0:=set_status s ts0]> (timers w) !! t = Some ts' ∧
                   t_d ts' = t_d ts ∧ t_func ts' = t_func ts ∧
                   timer_moved (t_status ts) (t_status ts') = true) as Hset.
  { intros t0 ts0 s Ht0 Hs. destruct (decide (t0 = t)) as [->|Hne].
    - rewrite list_lookup_insert_eq by done. eexists. split; [done|].
      rewrite Ht in Ht0. injection Ht0 as <-. done.
    - rewrite list_lookup_insert_ne by done. exists ts.
      by rewrite timer_moved_refl. }
  assert (∃ ts', timers w !! t = Some ts' ∧ t_d ts' = t_d ts ∧
                 t_func ts' = t_func ts ∧
                 timer_moved (t_status ts) (t_status ts') = true) as Hsame.
  { exists ts. by rewrite timer_moved_refl. }
  destruct a as [q k|msg|t0|t0]; unfold step in Hstep.
  - rewrite run_addReplyToListen in Hstep. injection Hstep as <-.
    world_simpl. exists ts. rewrite lookup_app_l by done.
    by rewrite timer_moved_refl.
  - apply (inj Some) in Hstep. revert Hstep. rewrite listen_body_cases.
    destruct (dropped_as_malformed hdr msg).
    { rewrite run_call. by intros [= <-]. }
    rewrite run_route.
    destruct (repliesMap (router w) !! CorrelationId msg) as [e|];
      [|by intros [= <-]].
    destruct (timers w !! timer e) as [ts0|] eqn:Ht0; [|done].
    destruct (is_armed (t_status ts0)) eqn:Harmed; [|by intros [= <-]].
    destruct (chans w !! ch e) as [cs|]; [|done].
    destruct (closed cs); [done|]. intros [= <-].
    apply (Hset _ _ Stopped Ht0). by destruct (t_status ts0).
  - destruct (timers w !! t0) as [ts0|] eqn:Ht0; [|done].
    destruct (is_armed (t_status ts0)) eqn:Harmed; [|done].
    injection Hstep as <-. apply (Hset _ _ Fired Ht0).
    by destruct (t_status ts0).
  - destruct (timers w !! t0) as [ts0|] eqn:Ht0; [|done].
    destruct (is_fired (t_status ts0)) eqn:Hfired; [|done].
    apply (inj Some) in Hstep.
    destruct (t_func ts0) as [k]. cbn [timer_body] in Hstep.
    destruct (cleanReply_shape _ _ _ Hstep) as (_ & _ & ->).
    apply (Hset _ _ Returned Ht0). by destruct (t_status ts0).
Qed.

(** X8.  Through any run of steps a timer keeps its duration and its
    function, and its status only moves forward: an armed timer may be
    stopped or fire, the goroutine of a fired timer may return.  A stopped
    timer stays stopped: it can never fire and its [cleanReply] can never
    run.  The router's identity and timeout do not change either. *)
Theorem timers_move_forward hdr l w w' t ts :
  steps hdr l w = Some (Done () w') →
  timers w !! t = Some ts →
  router_id (router w') = router_id (router w) ∧
  timeout (router w') = timeout (router w) ∧
  ∃ ts',
    timers w' !! t = Some ts' ∧
    t_d ts' = t_d ts ∧ t_func ts' = t_func ts ∧
    timer_moved (t_status ts) (t_status ts') = true ∧
    (t_status ts = Stopped →
     t_status ts' = Stopped ∧
     step hdr (Fire t) w' = None ∧ step hdr (RunTimer t) w' = None).
Proof.
  revert w ts. induction l as [|a l IH]; intros w ts; simpl.
  - intros [= <-] Ht. split; [done|]. split; [done|]. exists ts.
    rewrite timer_moved_refl. do 4 (split; [done|]).
    intros Hs. unfold step. by rewrite Ht, Hs.
  - destruct (step hdr a w) as [[[] w1|]|] eqn:Hstep; [|done..].
    intros Hl Ht.
    destruct (step_router _ _ _ _ Hstep) as [Hid Hto].
    destruct (step_timer _ _ _ _ _ _ Hstep Ht) as (ts1 & Ht1 & Hd1 & Hf1 & Hm1).
    destruct (IH _ _ Hl Ht1) as (Hid' & Hto' & ts' & Ht' & Hd' & Hf' & Hm' & Hs').
    split; [congruence|]. split; [congruence|]. exists ts'.
    split; [done|]. split; [congruence|]. split; [congruence|].
    split; [by eapply timer_moved_trans|].
    intros Hs. apply Hs'. rewrite Hs in Hm1. by destruct (t_status ts1).
Qed.

Lemma timers_move_forward_witness :
  let w := sample_world [Call "q" "abc"; Deliver (sample_reply "abc")] in
  let w' := sample_world [Call "q" "abc"; Deliver (sample_reply "abc");
                          Call "q" "xyz"; Fire 1%nat; RunTimer 1%nat] in
  timers w !! 0%nat = Some {| t_status := Stopped; t_d := 45000000000;
                              t_func := CleanReply "abc" |} ∧
  step sample_header (Fire 0%nat) w' = None ∧
  step sample_header (RunTimer 0%nat) w' = None.
Proof.
  intros w w'. split; [reflexivity|].
  assert (steps sample_header [Call "q" "xyz"; Fire 1%nat; RunTimer 1%nat] w
          = Some (Done () w')) as Hl by (vm_compute; reflexivity).
  destruct (timers_move_forward sample_header _ w w' 0%nat
              {| t_status := Stopped; t_d := 45000000000;
                 t_func := CleanReply "abc" |} Hl eq_refl)
    as (_ & _ & ts' & _ & _ & _ & _ & Hs).
  destruct (Hs eq_refl) as (_ & H1 & H2). split; [exact H1|exact H2].
Defined.

Lemma step_timers_timeout hdr a w w' :
  step hdr a w = Some (Done () w') →
  (∀ t ts, timers w !! t = Some ts → t_d ts = timeout (router w)) →
  ∀ t ts, timers w' !! t = Some ts → t_d ts = timeout (router w').
Proof.
  intros Hstep IH t ts' Ht'.
  destruct (step_router _ _ _ _ Hstep) as [_ ->].
  destruct (timers w !! t) as [ts|] eqn:Ht.
  - destruct (step_timer _ _ _ _ _ _ Hstep Ht) as (ts1 & Ht1 & Hd1 & _).
    rewrite Ht' in Ht1. injection Ht1 as <-. rewrite Hd1. by eapply IH.
  - destruct a as [q k|msg|t0|t0]; unfold step in Hstep.
    + rewrite run_addReplyToListen in Hstep. injection Hstep as <-.
      revert Ht'. world_simpl.
      intros [Hl|[_ Hn]]%lookup_app_Some; [congruence|].
      apply list_lookup_singleton_Some in Hn as [_ <-]. done.
    + apply (inj Some) in Hstep.
      destruct (listen_body_shape _ _ _ _ Hstep) as (_ & _ & Hlen).
      apply lookup_lt_Some in Ht'. apply lookup_ge_None in Ht. lia.
    + destruct (timers w !! t0) as [ts0|]; [|done].
      destruct (is_armed (t_status ts0)); [|done]. injection Hstep as <-.
      apply lookup_lt_Some in Ht'. apply lookup_ge_None in Ht.
      revert Ht'. world_simpl. rewrite length_insert. lia.
    + destruct (timers w !! t0) as [ts0|]; [|done].
      destruct (is_fired (t_status ts0)); [|done]. apply (inj Some) in Hstep.
      destruct (t_func ts0) as [k]. cbn [timer_body] in Hstep.
      destruct (cleanReply_shape _ _ _ Hstep) as (_ & _ & Heq).
      rewrite Heq in Ht'. apply lookup_lt_Some in Ht'.
      apply lookup_ge_None in Ht. revert Ht'. world_simpl.
      rewrite length_insert. lia.
Qed.

Lemma steps_timers_timeout hdr l w w' :
  steps hdr l w = Some (Done () w') →
  (∀ t ts, timers w !! t = Some ts → t_d ts = timeout (router w)) →
  router_id (router w') = router_id (router w) ∧
  timeout (router w') = timeout (router w) ∧
  ∀ t ts, timers w' !! t = Some ts → t_d ts = timeout (router w').
Proof.
  revert w. induction l as [|a l IH]; intros w; simpl.
  - by intros [= <-].
  - destruct (step hdr a w) as [[[] w1|]|] eqn:Hstep; [|done..].
    intros Hl Hw.
    destruct (step_router _ _ _ _ Hstep) as [Hid Hto].
    destruct (IH _ Hl (step_timers_timeout _ _ _ _ Hstep Hw))
      as (Hid' & Hto' & Ht).
    split; [congruence|]. split; [congruence|done].
Qed.

(** X9.  However a router is used after its construction, it keeps the
    identity and the timeout it was constructed with, and every timer it
    started was started with that timeout. *)
Theorem timers_carry_timeout hdr appName d uuid l w :
  steps hdr l (init_world (newReplyRouter appName d uuid).1)
    = Some (Done () w) →
  router_id (router w) = appName +:+ "." +:+ uuid ∧
  timeout (router w) = d ∧
  ∀ t ts, timers w !! t = Some ts → t_d ts = d.
Proof.
  intros Hl.
  destruct (steps_timers_timeout _ _ _ _ Hl) as (Hid & Hto & Ht).
  { intros t ts. simpl. by rewrite lookup_nil. }
  split; [done|]. split; [done|]. intros t ts Hts.
  by rewrite (Ht _ _ Hts), Hto.
Qed.

Lemma timers_carry_timeout_witness :
  let w := sample_world [Call "q1" "abc"; Call "q2" "xyz"; Fire 0%nat] in
  router_id (router w) =
    "testingPublisherApp.6ba7b810-9dad-11d1-80b4-00c04fd430c8" ∧
  ∀ t ts, timers w !! t = Some ts → t_d ts = 45000000000.
Proof.
  intros w.
  destruct (timers_carry_timeout sample_header "testingPublisherApp"
              45000000000 "6ba7b810-9dad-11d1-80b4-00c04fd430c8"
              [Call "q1" "abc"; Call "q2" "xyz"; Fire 0%nat] w eq_refl)
    as (H1 & _ & H2).
  split; [exact H1|exact H2].
Defined.

(** ** A reply and the deadline, in every order *)

Lemma steps_cons hdr a l w :
  steps hdr (a :: l) w =
  match step hdr a w with
  | Some (Done _ w') => steps hdr l w'
  | r => r
  end.
Proof. done. Qed.

Lemma step_Deliver_found hdr msg e ts w :
  dropped_as_malformed hdr msg = false →
  repliesMap (router w) !! CorrelationId msg = Some e →
  timers w !! timer e = Some ts →
  chans w !! ch e = Some open_chan →
  step hdr (Deliver msg) w =
  Some (Done ()
    (if is_armed (t_status ts) then
       emit (EAck (DeliveryTag msg) false)
         (set_repliesMap (delete (CorrelationId msg))
            (hand_over (ch e) (reply_of e msg) open_chan
               (set_timers (<[timer e:=set_status Stopped ts]> (timers w)) w)))
     else emit (EAck (DeliveryTag msg) false) w)).
Proof.
  intros Hm Hk Ht Hc. unfold step.
  rewrite listen_body_cases, Hm, run_route, Hk, Ht.
  destruct (is_armed (t_status ts)); [|done]. by rewrite Hc.
Qed.

Lemma step_Deliver_absent hdr msg w :
  dropped_as_malformed hdr msg = false →
  repliesMap (router w) !! CorrelationId msg = None →
  step hdr (Deliver msg) w = Some (Done () w).
Proof.
  intros Hm Hk. unfold step.
  by rewrite listen_body_cases, Hm, run_route_absent.
Qed.

(** X10.  A reply and the deadline of its entry, in each order the steps can
    take.  The reply first: it is handed over, and after it the timer can
    neither fire nor run.  The timer fired but its [cleanReply] not yet run:
    the reply is acknowledged and dropped, and [cleanReply] then hands over
    the timeout.  The timer fired and run: the timeout is handed over, and
    the reply that follows finds no entry and changes nothing.  In each
    order exactly one value is sent on the channel, which ends closed, and
    the key is deleted. *)
Theorem reply_against_deadline hdr msg e ts w :
  reachable hdr w →
  dropped_as_malformed hdr msg = false →
  repliesMap (router w) !! CorrelationId msg = Some e →
  timers w !! timer e = Some ts →
  t_status ts = Armed →
  let t := timer e in
  let settled_with v w' :=
    chans w' !! ch e = Some {| closed := true; delivered := [v] |} ∧
    sent_on (ch e) (trace w') = [v] ∧
    repliesMap (router w') !! CorrelationId msg = None in
  (∃ w1, steps hdr [Deliver msg] w = Some (Done () w1) ∧
         settled_with (reply_of e msg) w1 ∧
         step hdr (Fire t) w1 = None ∧ step hdr (RunTimer t) w1 = None) ∧
  (∃ w2, steps hdr [Fire t; Deliver msg; RunTimer t] w = Some (Done () w2) ∧
         settled_with (timeout_of e) w2 ∧
         ack_calls (trace w2) = ack_calls (trace w) ++ [(DeliveryTag msg, false)]) ∧
  (∃ w3, steps hdr [Fire t; RunTimer t; Deliver msg] w = Some (Done () w3) ∧
         steps hdr [Fire t; RunTimer t] w = Some (Done () w3) ∧
         settled_with (timeout_of e) w3 ∧
         ack_calls (trace w3) = ack_calls (trace w)).
Proof.
  intros Hw%reachable_consistent Hm Hk Ht Hs t settled_with.
  destruct (cons_entry _ Hw _ _ Hk) as [Hc (ts0 & Ht0 & Hf & _)].
  rewrite Ht in Ht0. injection Ht0 as <-.
  destruct (cons_trace _ Hw (ch e)) as [Hsent _]. rewrite Hc in Hsent.
  simpl in Hsent.
  assert (ch e < length (chans w))%nat as Hlc by (by eapply lookup_lt_Some).
  assert (timer e < length (timers w))%nat as Hlt by (by eapply lookup_lt_Some).
  assert (∀ v w1, chans w1 = chans w → trace w1 = trace w →
            settled_with v (set_repliesMap (delete (CorrelationId msg))
                              (hand_over (ch e) v open_chan w1))) as Hsettle.
  { intros v w1 Hch Htr. unfold settled_with. world_simpl.
    rewrite Hch, Htr. split; [by apply list_lookup_insert_eq|].
    split; [|apply lookup_delete_eq].
    rewrite !sent_on_snoc, Hsent, app_nil_r. simpl.
    by rewrite decide_True. }
  split; [|split].
  - eexists. split.
    { rewrite steps_one, (step_Deliver_found _ _ _ _ _ Hm Hk Ht Hc), Hs.
      cbn [is_armed]. done. }
    split.
    { destruct (Hsettle (reply_of e msg)
                  (set_timers (<[timer e:=set_status Stopped ts]> (timers w)) w)
                  eq_refl eq_refl) as (H1 & H2 & H3).
      split; [exact H1|]. split; [|exact H3].
      change (trace (emit ?ev ?x)) with (trace x ++ [ev]).
      by rewrite sent_on_snoc, H2. }
    unfold step. world_simpl. by rewrite list_lookup_insert_eq.
  - assert (steps hdr [Fire t; Deliver msg; RunTimer t] w =
            Some (Done () (set_repliesMap (delete (CorrelationId msg))
              (hand_over (ch e) (timeout_of e) open_chan
                 (set_timers (<[timer e:=set_status Returned ts]> (timers w))
                    (emit (EAck (DeliveryTag msg) false) w)))))) as Hrun.
    { rewrite steps_cons, (step_Fire _ _ _ _ Ht Hs), steps_cons.
      rewrite (step_Deliver_found _ _ e (set_status Fired ts));
        [|done|done|by apply list_lookup_insert_eq|done].
      cbn [is_armed set_status t_status].
      rewrite steps_one, (step_RunTimer _ _ (set_status Fired ts));
        [|by apply list_lookup_insert_eq|done].
      cbn [set_status t_func]. rewrite Hf. cbn [timer_body].
      rewrite run_cleanReply. world_simpl. rewrite Hk, Hc. simpl.
      by rewrite list_insert_insert_eq. }
    eexists. split; [exact Hrun|]. split.
    { unfold settled_with. world_simpl.
      split; [by apply list_lookup_insert_eq|].
      split; [|apply lookup_delete_eq].
      rewrite !sent_on_snoc, Hsent, !app_nil_r. simpl.
      by rewrite decide_True. }
    world_simpl. by rewrite !ack_calls_snoc, !app_nil_r.
  - assert (steps hdr [Fire t; RunTimer t] w =
            Some (Done () (set_repliesMap (delete (CorrelationId msg))
              (hand_over (ch e) (timeout_of e) open_chan
                 (set_timers (<[timer e:=set_status Returned ts]> (timers w)) w)))))
      as Hfr.
    { rewrite (steps_fire_run _ _ _ _ _ Ht Hs Hf), run_cleanReply.
      change (repliesMap (router (set_timers ?x w))) with (repliesMap (router w)).
      change (chans (set_timers ?x w)) with (chans w). by rewrite Hk, Hc. }
    eexists. split; [|split; [exact Hfr|split]].
    + rewrite steps_cons, (step_Fire _ _ _ _ Ht Hs), steps_cons.
      rewrite (step_RunTimer _ _ (set_status Fired ts));
        [|by apply list_lookup_insert_eq|done].
      cbn [set_status t_func]. rewrite Hf. cbn [timer_body].
      rewrite run_cleanReply.
      change (repliesMap (router (set_timers ?x (set_timers ?y w))))
        with (repliesMap (router w)).
      change (chans (set_timers ?x (set_timers ?y w))) with (chans w).
      rewrite Hk, Hc. cbn [closed open_chan].
      rewrite steps_one, step_Deliver_absent;
        [|done|apply lookup_delete_eq].
      world_simpl. by rewrite list_insert_insert_eq.
    + by apply Hsettle.
    + by rewrite ack_calls_hand_over.
Qed.

Lemma reply_against_deadline_witness :
  let w := sample_world [Call "q" "abc"] in
  let msg := sample_reply "abc" in
  let e := {| query := "q"; ch := 0%nat; timer := 0%nat |} in
  (∃ w1, steps sample_header [Deliver msg] w = Some (Done () w1) ∧
         chans w1 !! 0%nat =
           Some {| closed := true; delivered := [reply_of e msg] |} ∧
         step sample_header (Fire 0%nat) w1 = None) ∧
  (∃ w2, steps sample_header [Fire 0%nat; Deliver msg; RunTimer 0%nat] w
           = Some (Done () w2) ∧
         chans w2 !! 0%nat =
           Some {| closed := true; delivered := [timeout_of e] |}).
Proof.
  intros w msg e.
  destruct (reply_against_deadline sample_header msg e
              {| t_status := Armed; t_d := 45000000000;
                 t_func := CleanReply "abc" |} w
              (sample_world_reachable _) eq_refl eq_refl eq_refl eq_refl)
    as [(w1 & H1 & (H2 & _) & H3 & _) [(w2 & H4 & (H5 & _) & _) _]].
  split.
  - exists w1. split; [exact H1|]. split; [exact H2|exact H3].
  - exists w2. split; [exact H4|exact H5].
Defined.

(** X11.  Registering again under a correlation id whose first wait is still
    pending leaves the first timer running with the same key.  When that
    timer fires, its [cleanReply] finds the second entry: the second caller
    is handed a timeout before its own deadline, its own timer is still
    armed, and the first channel is left open with nothing sent. *)
Theorem overwrite_times_out_early hdr query2 k e1 ts1 w :
  reachable hdr w →
  repliesMap (router w) !! k = Some e1 →
  timers w !! timer e1 = Some ts1 →
  t_status ts1 = Armed →
  let c2 := length (chans w) in
  let t2 := length (timers w) in
  let v := {| reply_query := ""; reply_data := [];
              reply_err := Some (TimeoutReplyError
                ("timeout while waiting for reply " +:+ query2)) |} in
  ∃ w',
    steps hdr [Call query2 k; Fire (timer e1); RunTimer (timer e1)] w
      = Some (Done () w') ∧
    chans w' !! c2 = Some {| closed := true; delivered := [v] |} ∧
    chans w' !! ch e1 = Some open_chan ∧
    repliesMap (router w') !! k = None ∧
    timers w' !! t2 = Some {| t_status := Armed; t_d := timeout (router w);
                              t_func := CleanReply k |} ∧
    trace w' = trace w ++ [ESend c2 v; EClose c2].
Proof.
  intros Hw%reachable_consistent Hk Ht Hs c2 t2 v.
  destruct (cons_entry _ Hw _ _ Hk) as [Hc (ts0 & Ht0 & Hf & _)].
  rewrite Ht in Ht0. injection Ht0 as <-.
  assert (ch e1 < length (chans w))%nat as Hlc by (by eapply lookup_lt_Some).
  assert (timer e1 < length (timers w))%nat as Hlt by (by eapply lookup_lt_Some).
  eexists. split.
  { rewrite steps_cons. unfold step at 1.
    rewrite run_addReplyToListen. cbn [forget].
    rewrite (steps_fire_run hdr (timer e1) ts1 _ k); [|world_simpl|done..].
    2:{ by rewrite lookup_app_l. }
    rewrite run_cleanReply. world_simpl.
    rewrite lookup_insert_eq. simpl.
    rewrite lookup_app_r, Nat.sub_diag by done. simpl. done. }
  world_simpl. split; [|split; [|split; [|split]]].
  - rewrite list_lookup_insert_eq; [done|]. rewrite length_app. simpl. lia.
  - rewrite list_lookup_insert_ne by lia. by rewrite lookup_app_l.
  - apply lookup_delete_eq.
  - rewrite list_lookup_insert_ne by lia.
    by rewrite lookup_app_r, Nat.sub_diag.
  - by rewrite <- !app_assoc.
Qed.

Lemma overwrite_times_out_early_witness :
  let w := sample_world [Call "q1" "abc"] in
  ∃ w',
    steps sample_header [Call "q2" "abc"; Fire 0%nat; RunTimer 0%nat] w
      = Some (Done () w') ∧
    chans w' !! 1%nat =
      Some {| closed := true;
              delivered := [{| reply_query := ""; reply_data := [];
                               reply_err := Some (TimeoutReplyError
                                 "timeout while waiting for reply q2") |}] |} ∧
    chans w' !! 0%nat = Some open_chan.
Proof.
  intros w.
  destruct (overwrite_times_out_early sample_header "q2" "abc"
              {| query := "q1"; ch := 0%nat; timer := 0%nat |}
              {| t_status := Armed; t_d := 45000000000;
                 t_func := CleanReply "abc" |} w
              (sample_world_reachable _) eq_refl eq_refl eq_refl)
    as (w' & H1 & H2 & H3 & _).
  exists w'. split; [exact H1|]. split; [exact H2|exact H3].
Defined.

(** ** Edge cases of the consumer loop *)

(** X12.  A delivery with an empty correlation-id field whose header is
    missing (an empty or nil header table included) or is the empty string
    is acknowledged once and otherwise ignored: the table, the channels and
    the timers are as before, even when an entry is waiting under the empty
    key. *)
Theorem listen_body_malformed hdr msg w :
  CorrelationId msg = "" →
  Headers msg !! hdr = None ∨ Headers msg !! hdr = Some (IString "") →
  run (listen_body hdr msg) w = Done () (emit (EAck (DeliveryTag msg) false) w) ∧
  repliesMap (router (emit (EAck (DeliveryTag msg) false) w))
    = repliesMap (router w) ∧
  chans (emit (EAck (DeliveryTag msg) false) w) = chans w ∧
  timers (emit (EAck (DeliveryTag msg) false) w) = timers w.
Proof.
  intros Hid Hh.
  assert (dropped_as_malformed hdr msg = true) as Hm
    by (by apply dropped_as_malformed_iff).
  by rewrite listen_body_cases, Hm, run_call.
Qed.

Lemma listen_body_malformed_witness :
  let w := sample_world [Call "q" ""] in
  let msg := {| CorrelationId := ""; Headers := ∅; Body := [];
                DeliveryTag := 9%N |} in
  repliesMap (router w) !! "" =
    Some {| query := "q"; ch := 0%nat; timer := 0%nat |} ∧
  run (listen_body sample_header msg) w = Done () (emit (EAck 9 false) w).
Proof.
  intros w msg. split; [reflexivity|].
  apply (listen_body_malformed sample_header msg w); [reflexivity|].
  left. reflexivity.
Defined.

(** ** Waits do not share *)

(** X13.  In every state the router can reach, the entries under two
    different correlation ids hold different channels and different timers:
    a reply or a timeout for one wait cannot reach the caller of another. *)
Theorem pending_waits_disjoint hdr w k1 k2 e1 e2 :
  reachable hdr w →
  repliesMap (router w) !! k1 = Some e1 →
  repliesMap (router w) !! k2 = Some e2 →
  k1 ≠ k2 →
  ch e1 ≠ ch e2 ∧ timer e1 ≠ timer e2.
Proof.
  intros Hw%reachable_consistent H1 H2 Hne. split.
  - intros Heq. apply Hne. by eapply (cons_chan_inj _ Hw).
  - intros Heq.
    destruct (cons_entry _ Hw _ _ H1) as [_ (ts1 & Ht1 & Hf1 & _)].
    destruct (cons_entry _ Hw _ _ H2) as [_ (ts2 & Ht2 & Hf2 & _)].
    rewrite Heq, Ht2 in Ht1. injection Ht1 as <-. congruence.
Qed.

Lemma pending_waits_disjoint_witness :
  let w := sample_world [Call "q1" "abc"; Call "q2" "xyz"] in
  ch {| query := "q1"; ch := 0%nat; timer := 0%nat |} ≠
  ch {| query := "q2"; ch := 1%nat; timer := 1%nat |}.
Proof.
  intros w.
  apply (pending_waits_disjoint sample_header w "abc" "xyz"
           {| query := "q1"; ch := 0%nat; timer := 0%nat |}
           {| query := "q2"; ch := 1%nat; timer := 1%nat |}
           (sample_world_reachable _) eq_refl eq_refl).
  discriminate.
Defined.

(** ** A reply racing with its deadline, instruction by instruction *)







